(** * Compile-time constants of the Chapel front end: literal parsing,
      Immediates, Params and folding

    A shallow embedding of [frontend/lib/types/Param.cpp]: the literal
    parsers ([binStr2uint64], [octStr2uint64], [decStr2uint64],
    [decStr2int64], [hexStr2uint64]), the conversions between [Param]s and
    [Immediate]s, the folding entry point [Param::fold] and the interning
    getters generated by [PARAM_NODE]. *)

From stdpp Require Import base numbers option list strings gmap.
From Stdlib Require Import Ascii SpecFloat.

Local Open Scope Z_scope.

(** ** Outcomes

    A C++ call either returns or does not.  [Abort] is a failed
    [CHPL_ASSERT]; [EvalError] is an error raised by the constant evaluator
    and propagated to the caller of the fold. *)

Inductive outcome (A : Type) : Type :=
| Abort (what : string)
| EvalError (msg : string)
| Ret (a : A).
Arguments Abort {A} what.
Arguments EvalError {A} msg.
Arguments Ret {A} a.

#[global] Instance outcome_ret : MRet outcome := fun A a => Ret a.

#[global] Instance outcome_bind : MBind outcome := fun A B k m =>
  match m with
  | Abort w => Abort w
  | EvalError e => EvalError e
  | Ret a => k a
  end.

(** Modelled from the spec: the macro [CHPL_ASSERT] (chpl/util/assertions.h
    is not among the sources).  Internal invariant violations "are fatal
    assertions ... allowed to terminate the compilation process
    immediately": a failed assertion ends the call. *)
Definition CHPL_ASSERT (cond : bool) (what : string) : outcome unit :=
  if cond then Ret tt else Abort what.

(** ** C strings and 64-bit integers *)

Module CStr.

(** A buffer holds the bytes before the terminating NUL; a [const char*]
    is [None] when it is the null pointer. *)
Abbreviation cstr := (list ascii).

Definition NUL : ascii := Ascii.zero.

Definition C (s : string) : cstr := String.list_ascii_of_string s.

(** [str[i]]: the byte at index [i]; the terminator is read at the end of
    the buffer. *)
Definition at_ (s : cstr) (i : Z) : ascii :=
  default NUL (s !! Z.to_nat i).

(** [str + i] *)
Definition from (s : cstr) (i : Z) : cstr := drop (Z.to_nat i) s.

(** The C string a [const char*] denotes: the bytes up to the first NUL. *)
Fixpoint upto_nul (s : cstr) : cstr :=
  match s with
  | [] => []
  | c :: s' => if Ascii.eqb c NUL then [] else c :: upto_nul s'
  end.

Definition to_string (s : cstr) : string := String.string_of_list_ascii (upto_nul s).

Definition code (c : ascii) : Z := Z.of_N (N_of_ascii c).

(** ['lo' <= c && c <= 'hi'] *)
Definition between (lo hi c : ascii) : bool :=
  (code lo <=? code c) && (code c <=? code hi).

Definition two64 : Z := 2 ^ 64.
Definition UINT64_MAX : Z := two64 - 1.
Definition INT64_MAX : Z := 2 ^ 63 - 1.
Definition INT64_MIN : Z := - 2 ^ 63.

(** Conversion to [uint64_t] / [size_t], and to [int64_t]. *)
Definition as_uint64 (z : Z) : Z := z mod two64.
Definition as_int64 (z : Z) : Z :=
  let u := z mod two64 in if u <? 2 ^ 63 then u else u - two64.

(** [size_t] subtraction wraps around. *)
Definition size_sub (a b : Z) : Z := as_uint64 (a - b).

(** [stringContainsZeroBytes(str, len)] (UniqueString-detail.h): does one
    of the first [len] bytes hold NUL?  A buffer shorter than [len] has its
    terminator among them. *)
Definition stringContainsZeroBytes (s : cstr) (len : Z) : bool :=
  existsb (fun c => Ascii.eqb c NUL) (take (Z.to_nat len) s)
  || (Z.of_nat (length s) <? len).

(** *** The C library's [sscanf] with one integer conversion

    [%o], [%x], [%u] and [%d] skip white space, accept a sign (and, for
    [%x], a [0x] prefix), then read digits of the base for as long as there
    are some.  Without a digit nothing is assigned and the call does not
    return 1.  A value out of range is stored as glibc's [strtoull] and
    [strtoll] store it: for the unsigned conversions the largest value
    whatever the sign, a value in range being negated modulo [2^64] after a
    minus sign; for [%d] the bound on the side of the sign. *)

Definition isspace (c : ascii) : bool :=
  let n := code c in (n =? 32) || ((9 <=? n) && (n <=? 13)).

Fixpoint skip_space (s : cstr) : cstr :=
  match s with
  | c :: s' => if isspace c then skip_space s' else s
  | [] => []
  end.

Definition digit_of (base : Z) (c : ascii) : option Z :=
  let d :=
    if between "0" "9" c then Some (code c - 48)
    else if between "a" "z" c then Some (code c - 97 + 10)
    else if between "A" "Z" c then Some (code c - 65 + 10)
    else None in
  match d with
  | Some v => if v <? base then Some v else None
  | None => None
  end.

(** The digits read and their value. *)
Fixpoint scan_digits (base : Z) (s : cstr) (acc : Z) : Z :=
  match s with
  | c :: s' =>
      match digit_of base c with
      | Some d => scan_digits base s' (acc * base + d)
      | None => acc
      end
  | [] => acc
  end.

Definition scan_sign (s : cstr) : bool * cstr :=
  match s with
  | c :: s' =>
      if Ascii.eqb c "-" then (true, s')
      else if Ascii.eqb c "+" then (false, s')
      else (false, s)
  | [] => (false, s)
  end.

Definition scan_0x (base : Z) (s : cstr) : cstr :=
  match s with
  | z :: x :: (d :: _) as s' =>
      if (base =? 16) && Ascii.eqb z "0"
         && (Ascii.eqb x "x" || Ascii.eqb x "X")
         && bool_decide (is_Some (digit_of 16 d))
      then s' else s
  | _ => s
  end.

Definition has_digit (base : Z) (s : cstr) : bool :=
  match s with
  | c :: _ => bool_decide (is_Some (digit_of base c))
  | [] => false
  end.

(** [sscanf(s, "%" SCNo64 / SCNx64 / SCNu64, &val) == 1], with the 64 bits
    stored in [val] read as unsigned. *)
Definition sscanf_u64 (base : Z) (s : cstr) : option Z :=
  let '(neg, s1) := scan_sign (skip_space (upto_nul s)) in
  let s2 := scan_0x base s1 in
  if has_digit base s2 then
    let v := scan_digits base s2 0 in
    Some (if UINT64_MAX <? v then UINT64_MAX
          else if neg then as_uint64 (- v) else v)
  else None.

(** [sscanf(s, "%" SCNd64, &val) == 1]. *)
Definition sscanf_d64 (s : cstr) : option Z :=
  let '(neg, s1) := scan_sign (skip_space (upto_nul s)) in
  if has_digit 10 s1 then
    let v := scan_digits 10 s1 0 in
    Some (if neg then (if 2 ^ 63 <? v then INT64_MIN else - v)
          else (if INT64_MAX <? v then INT64_MAX else v))
  else None.

(** *** [snprintf(buf, size, "%" SCNu64, val)]

    The decimal digits of [val] read as an unsigned 64-bit number, produced
    from the least significant one; the first [size - 1] of them are kept. *)

Definition digit_char (d : Z) : ascii := ascii_of_N (Z.to_N (48 + d)).

Fixpoint utoa (fuel : nat) (n : Z) (acc : cstr) : cstr :=
  match fuel with
  | O => acc
  | S fuel' =>
      let acc' := digit_char (n mod 10) :: acc in
      if n / 10 =? 0 then acc' else utoa fuel' (n / 10) acc'
  end.

(** Twenty digits are enough below [2^64]. *)
Definition format_u64 (val : Z) : cstr := utoa 20 (as_uint64 val) [].

Definition snprintf_u64 (size : Z) (val : Z) : cstr :=
  take (Z.to_nat (size - 1)) (format_u64 val).

(** [strcmp(a, b) != 0] *)
Definition strcmp_ne (a b : cstr) : bool :=
  negb (bool_decide (upto_nul a = upto_nul b)).

End CStr.

Import CStr.

(** ** The literal parsers *)

(** What a parser hands back: the returned value and the text assigned to
    the [err] out-parameter, [None] when the parser left it untouched. *)
Record parsed := Parsed { value : Z; err : option string }.

Definition ok (v : Z) : outcome parsed := Ret (Parsed v None).
Definition failed (msg : string) : outcome parsed := Ret (Parsed 0 (Some msg)).

Definition overflow_msg (str : cstr) : string :=
  ("Integer literal overflow: '" +:+ to_string str
   +:+ "' is too big for a 64-bit unsigned integer")%string.

Definition illegal_msg (c : ascii) (what : string) : string :=
  ("illegal character '" +:+ String c EmptyString +:+ "' in " +:+ what +:+ " literal")%string.

(** [while (str[startPos] == '0' && startPos < len-1) startPos++;]
    with [rest = str + startPos].  At the end of the buffer [str[startPos]]
    is the terminator and the loop stops. *)
Fixpoint skip_leading (c : ascii) (rest : cstr) (len startPos : Z) : Z :=
  match rest with
  | x :: rest' =>
      if Ascii.eqb x c && (startPos <? size_sub len 1)
      then skip_leading c rest' len (as_uint64 (startPos + 1))
      else startPos
  | [] => startPos
  end.

(** [for (i = startPos; i < len; i++) if (!legal(str[i])) ... return 0;]
    with [rest = str + i]: the first character that is not legal. *)
Fixpoint first_illegal (legal : ascii -> bool) (rest : cstr) (len i : Z)
  : option ascii :=
  match rest with
  | x :: rest' =>
      if i <? len then
        if legal x then first_illegal legal rest' len (as_uint64 (i + 1))
        else Some x
      else None
  | [] => if i <? len then Some NUL else None
  end.

(** The loop of [binStr2uint64]: shift, then add the bit. *)
Fixpoint bin_loop (rest : cstr) (len i val : Z) : outcome parsed :=
  match rest with
  | x :: rest' =>
      if i <? len then
        let val := as_uint64 (Z.shiftl val 1) in
        if Ascii.eqb x "0" then bin_loop rest' len (as_uint64 (i + 1)) val
        else if Ascii.eqb x "1"
             then bin_loop rest' len (as_uint64 (i + 1)) (as_uint64 (val + 1))
             else failed (illegal_msg x "binary")
      else ok val
  | [] => if i <? len then failed (illegal_msg NUL "binary") else ok val
  end.

Definition has_prefix (s : cstr) (lower upper : ascii) : bool :=
  Ascii.eqb (at_ s 0) "0"
  && (Ascii.eqb (at_ s 1) lower || Ascii.eqb (at_ s 1) upper).

Definition binStr2uint64 (str : option cstr) (len : Z) : outcome parsed :=
  match str with
  | None =>
      CHPL_ASSERT false "should not be reached" ;;
      failed "Invalid binary string"
  | Some s =>
      if negb (has_prefix s "b" "B") || stringContainsZeroBytes s len then
        CHPL_ASSERT false "should not be reached" ;;
        failed "Invalid binary string"
      else
        CHPL_ASSERT (3 <=? len) "len >= 3" ;;
        let startPos := skip_leading "0" (from s 2) len 2 in
        if 64 <? size_sub len startPos then failed (overflow_msg s)
        else bin_loop (from s startPos) len startPos 0
  end.

Definition is_oct_char (c : ascii) : bool := between "0" "8" c.

Definition octStr2uint64 (str : option cstr) (len : Z) : outcome parsed :=
  match str with
  | None =>
      CHPL_ASSERT false "should not be reached" ;;
      failed "Invalid octal string"
  | Some s =>
      if negb (has_prefix s "o" "O") || stringContainsZeroBytes s len then
        CHPL_ASSERT false "should not be reached" ;;
        failed "Invalid octal string"
      else
        let startPos := skip_leading "0" (from s 2) len 2 in
        if (22 <? size_sub len startPos)
           || ((size_sub len startPos =? 22)
               && negb (Ascii.eqb (at_ s startPos) "1"))
        then failed (overflow_msg s)
        else
          match first_illegal is_oct_char (from s startPos) len startPos with
          | Some c => failed (illegal_msg c "octal")
          | None =>
              match sscanf_u64 8 (from s startPos) with
              | None => failed "error converting octal literal"
              | Some val => ok val
              end
          end
  end.

Definition is_dec_char (c : ascii) : bool := between "0" "9" c.

Definition decStr2uint64 (str : option cstr) (len : Z) : outcome parsed :=
  match str with
  | None =>
      CHPL_ASSERT false "should not be reached" ;;
      failed "Invalid decimal string"
  | Some s =>
      if Ascii.eqb (at_ s 0) NUL || stringContainsZeroBytes s len then
        CHPL_ASSERT false "should not be reached" ;;
        failed "Invalid decimal string"
      else
        CHPL_ASSERT (1 <=? len) "len >= 1" ;;
        let startPos := skip_leading "0" (from s 0) len 0 in
        match first_illegal is_dec_char (from s startPos) len startPos with
        | Some c => failed (illegal_msg c "decimal")
        | None =>
            match sscanf_u64 10 (from s startPos) with
            | None => failed "error converting decimal literal"
            | Some scanned =>
                let val := as_int64 scanned in
                let checkStr := snprintf_u64 (len + 1) val in
                if strcmp_ne (from s startPos) checkStr
                then failed (overflow_msg s)
                else ok (as_uint64 val)
            end
        end
  end.

(** [while (str[startPos] == '-' && startPos < len-1)
       { negate = !negate; startPos++; }] *)
Fixpoint skip_minus (rest : cstr) (len startPos : Z) (negate : bool)
  : Z * bool :=
  match rest with
  | x :: rest' =>
      if Ascii.eqb x "-" && (startPos <? size_sub len 1)
      then skip_minus rest' len (as_uint64 (startPos + 1)) (negb negate)
      else (startPos, negate)
  | [] => (startPos, negate)
  end.

Definition decStr2int64 (str : option cstr) (len : Z) : outcome parsed :=
  match str with
  | None =>
      CHPL_ASSERT false "should not be reached" ;;
      failed "Invalid decimal string"
  | Some s =>
      if Ascii.eqb (at_ s 0) NUL || stringContainsZeroBytes s len then
        CHPL_ASSERT false "should not be reached" ;;
        failed "Invalid decimal string"
      else
        CHPL_ASSERT (1 <=? len) "len >= 1" ;;
        let '(startPos, negate) := skip_minus (from s 0) len 0 false in
        let startPos := skip_leading "0" (from s startPos) len startPos in
        match first_illegal is_dec_char (from s startPos) len startPos with
        | Some c => failed (illegal_msg c "decimal")
        | None =>
            match sscanf_d64 (from s startPos) with
            | None => failed "error converting decimal literal"
            | Some val =>
                let checkStr := snprintf_u64 (len + 1) val in
                if strcmp_ne (from s startPos) checkStr
                then failed (overflow_msg s)
                else if negate then ok (as_int64 (- val)) else ok val
            end
        end
  end.

Definition is_hex_char (c : ascii) : bool :=
  between "0" "9" c || between "a" "f" c || between "A" "F" c.

Definition hexStr2uint64 (str : option cstr) (len : Z) : outcome parsed :=
  match str with
  | None =>
      CHPL_ASSERT false "should not be reached" ;;
      failed "Invalid hexadecimal string"
  | Some s =>
      if negb (has_prefix s "x" "X") || stringContainsZeroBytes s len then
        CHPL_ASSERT false "should not be reached" ;;
        failed "Invalid hexadecimal string"
      else
        CHPL_ASSERT (3 <=? len) "len >= 3" ;;
        let startPos := skip_leading "0" (from s 2) len 2 in
        if 16 <? size_sub len startPos then failed (overflow_msg s)
        else
          match first_illegal is_hex_char (from s startPos) len startPos with
          | Some c => failed (illegal_msg c "hexadecimal")
          | None =>
              match sscanf_u64 16 (from s 2) with
              | None => failed "error converting hexadecimal literal"
              | Some val => ok val
              end
          end
  end.

(** The call a client makes: the buffer and its length. *)
Definition len (s : cstr) : Z := Z.of_nat (length s).

Definition parse (f : option cstr -> Z -> outcome parsed) (s : string)
  : outcome parsed :=
  f (Some (C s)) (len (C s)).

(** ** Primitive operators *)

(** The operator tags [Param.cpp] names, with [PRIM_OTHER] standing for every
    other tag of the enumeration (prim-ops-list.h is not among the
    sources). *)
Inductive PrimitiveTag : Type :=
| P_prim_pow | P_prim_mult | P_prim_div | P_prim_mod | P_prim_add
| P_prim_subtract | P_prim_lsh | P_prim_rsh
| P_prim_less | P_prim_lessorequal | P_prim_greater | P_prim_greaterorequal
| P_prim_equal | P_prim_notequal
| P_prim_and | P_prim_xor | P_prim_or | P_prim_land | P_prim_lor
| P_prim_plus | P_prim_minus | P_prim_not | P_prim_lnot
| P_prim_abs | P_prim_sqrt
| PRIM_CAST
| PRIM_OTHER (n : nat).

#[global] Instance PrimitiveTag_eq_dec : EqDecision PrimitiveTag.
Proof. solve_decision. Defined.

Definition isParamOpFoldable (op : PrimitiveTag) : bool :=
  match op with
  | P_prim_pow
  | P_prim_mult
  | P_prim_div
  | P_prim_mod
  | P_prim_add
  | P_prim_subtract
  | P_prim_lsh
  | P_prim_rsh
  | P_prim_less
  | P_prim_lessorequal
  | P_prim_greater
  | P_prim_greaterorequal
  | P_prim_equal
  | P_prim_notequal
  | P_prim_and
  | P_prim_xor
  | P_prim_or
  | P_prim_land
  | P_prim_lor
  | P_prim_plus
  | P_prim_minus
  | P_prim_not
  | P_prim_lnot
  | P_prim_abs
  | P_prim_sqrt => true
  | _ => false
  end.

(** ** Floating-point payloads

    A [double] or a [float] is carried as an IEEE 754 datum; the only
    operations [Param.cpp] applies to them are the two conversions. *)

Definition double : Type := spec_float.
Definition float : Type := spec_float.

(** [(float) d]: round to binary32. *)
Definition double_to_float (d : double) : float :=
  match d with
  | S754_finite s m e => binary_round 24 128 s m e
  | _ => d
  end.

(** [(double) f]: exact. *)
Definition float_to_double (f : float) : double :=
  match f with
  | S754_finite s m e => binary_round 53 1024 s m e
  | _ => f
  end.

Definition double_zero : double := S754_zero false.

#[global] Instance spec_float_eq_dec : EqDecision spec_float.
Proof. solve_decision. Defined.

(** ** Types, Params, Immediates and QualifiedTypes *)

(** The types [Param.cpp] asks about; [OtherType] is any other type. *)
Inductive Type_ : Type :=
| BoolType
| IntType (bitwidth : Z)
| UintType (bitwidth : Z)
| RealType (bitwidth : Z)
| ImagType (bitwidth : Z)
| ComplexType (bitwidth : Z)
| StringType
| BytesType
| CStringType
| NothingType
| OtherType (name : string).

#[global] Instance Type_eq_dec : EqDecision Type_.
Proof. solve_decision. Defined.

Definition isBoolType (t : Type_) : bool := bool_decide (t = BoolType).
Definition isStringType (t : Type_) : bool := bool_decide (t = StringType).
Definition isBytesType (t : Type_) : bool := bool_decide (t = BytesType).
Definition isCStringType (t : Type_) : bool := bool_decide (t = CStringType).
Definition isNothingType (t : Type_) : bool := bool_decide (t = NothingType).

(** [t->toIntType()] and its siblings: the type seen as that kind, here its
    bit width, or the null pointer. *)
Definition toIntType (t : Type_) : option Z :=
  match t with IntType w => Some w | _ => None end.
Definition toUintType (t : Type_) : option Z :=
  match t with UintType w => Some w | _ => None end.
Definition toRealType (t : Type_) : option Z :=
  match t with RealType w => Some w | _ => None end.
Definition toImagType (t : Type_) : option Z :=
  match t with ImagType w => Some w | _ => None end.
Definition toComplexType (t : Type_) : option Z :=
  match t with ComplexType w => Some w | _ => None end.

Definition isIntType (t : Type_) : bool := bool_decide (is_Some (toIntType t)).
Definition isUintType (t : Type_) : bool := bool_decide (is_Some (toUintType t)).
Definition isRealType (t : Type_) : bool := bool_decide (is_Some (toRealType t)).
Definition isImagType (t : Type_) : bool := bool_decide (is_Some (toImagType t)).
Definition isComplexType (t : Type_) : bool :=
  bool_decide (is_Some (toComplexType t)).

Module paramtags.
Inductive ParamTag : Type :=
| BoolParam | ComplexParam | EnumParam | IntParam
| NoneParam | RealParam | StringParam | UintParam.

#[global] Instance ParamTag_eq_dec : EqDecision ParamTag.
Proof. solve_decision. Defined.
End paramtags.

(** [Param::ComplexDouble] *)
Record ComplexDouble := { re : double; im : double }.

(** The concrete Param classes with their values. *)
Inductive Param : Type :=
| BoolParam (value : bool)
| ComplexParam (value : ComplexDouble)
| EnumParam (value : string)
| IntParam (value : Z)
| NoneParam
| RealParam (value : double)
| StringParam (value : string)
| UintParam (value : Z).

#[global] Instance ComplexDouble_eq_dec : EqDecision ComplexDouble.
Proof. solve_decision. Defined.

#[global] Instance Param_eq_dec : EqDecision Param.
Proof. solve_decision. Defined.

Definition tag (p : Param) : paramtags.ParamTag :=
  match p with
  | BoolParam _ => paramtags.BoolParam
  | ComplexParam _ => paramtags.ComplexParam
  | EnumParam _ => paramtags.EnumParam
  | IntParam _ => paramtags.IntParam
  | NoneParam => paramtags.NoneParam
  | RealParam _ => paramtags.RealParam
  | StringParam _ => paramtags.StringParam
  | UintParam _ => paramtags.UintParam
  end.

(** Modelled from the spec: [contentsMatchInner], the payload comparison of
    each Param class (Param.h is not among the sources): "bit-exact for
    integers/bool, defined equality for floating/complex, exact text equality
    for strings".  It is called on two Params of one tag. *)
Definition contentsMatchInner (lhs rhs : Param) : bool :=
  match lhs, rhs with
  | BoolParam a, BoolParam b => bool_decide (a = b)
  | IntParam a, IntParam b => bool_decide (a = b)
  | UintParam a, UintParam b => bool_decide (a = b)
  | RealParam a, RealParam b => SFeqb a b
  | ComplexParam a, ComplexParam b => SFeqb (re a) (re b) && SFeqb (im a) (im b)
  | StringParam a, StringParam b => bool_decide (a = b)
  | EnumParam a, EnumParam b => bool_decide (a = b)
  | NoneParam, NoneParam => true
  | _, _ => false
  end.

Definition completeMatch (this other : Param) : bool :=
  let lhs := this in
  let rhs := other in
  if negb (bool_decide (tag lhs = tag rhs)) then false
  else if negb (contentsMatchInner lhs rhs) then false
  else true.

(** The discriminants of an Immediate (immediates/num.h is not among the
    sources): the kind, the string kind and the width selector, by the names
    [Param.cpp] gives them.  [NUM_KIND_NONE] and [NUM_INDEX_0] are those of an
    Immediate nothing was stored in. *)
Inductive const_kind_t : Type :=
| NUM_KIND_NONE | NUM_KIND_BOOL | NUM_KIND_UINT | NUM_KIND_INT
| NUM_KIND_REAL | NUM_KIND_IMAG | NUM_KIND_COMPLEX | CONST_KIND_STRING.

Inductive string_kind_t : Type :=
| STRING_KIND_STRING | STRING_KIND_BYTES | STRING_KIND_C_STRING.

Inductive num_index_t : Type :=
| NUM_INDEX_0
| BOOL_SIZE_SYS
| INT_SIZE_8 | INT_SIZE_16 | INT_SIZE_32 | INT_SIZE_64
| FLOAT_SIZE_32 | FLOAT_SIZE_64
| COMPLEX_SIZE_64 | COMPLEX_SIZE_128.

#[global] Instance const_kind_eq_dec : EqDecision const_kind_t.
Proof. solve_decision. Defined.
#[global] Instance string_kind_eq_dec : EqDecision string_kind_t.
Proof. solve_decision. Defined.
#[global] Instance num_index_eq_dec : EqDecision num_index_t.
Proof. solve_decision. Defined.

(** The union of an Immediate: the member last stored. *)
Inductive imm_union : Type :=
| U_none
| U_bool (v : Z)
| U_int8 (v : Z) | U_int16 (v : Z) | U_int32 (v : Z) | U_int64 (v : Z)
| U_uint8 (v : Z) | U_uint16 (v : Z) | U_uint32 (v : Z) | U_uint64 (v : Z)
| U_float32 (v : float) | U_float64 (v : double)
| U_complex64 (r i : float) | U_complex128 (r i : double)
| U_string (v : string).

Record Immediate := {
  const_kind : const_kind_t;
  string_kind : string_kind_t;
  num_index : num_index_t;
  u : imm_union
}.

#[global] Instance imm_union_eq_dec : EqDecision imm_union.
Proof. solve_decision. Defined.
#[global] Instance Immediate_eq_dec : EqDecision Immediate.
Proof. solve_decision. Defined.

(** [Immediate ret;] *)
Definition Immediate_default : Immediate :=
  {| const_kind := NUM_KIND_NONE; string_kind := STRING_KIND_STRING;
     num_index := NUM_INDEX_0; u := U_none |}.

Definition set_const_kind (k : const_kind_t) (i : Immediate) : Immediate :=
  {| const_kind := k; string_kind := string_kind i;
     num_index := num_index i; u := u i |}.
Definition set_string_kind (k : string_kind_t) (i : Immediate) : Immediate :=
  {| const_kind := const_kind i; string_kind := k;
     num_index := num_index i; u := u i |}.
Definition set_num_index (n : num_index_t) (i : Immediate) : Immediate :=
  {| const_kind := const_kind i; string_kind := string_kind i;
     num_index := n; u := u i |}.
Definition store (v : imm_union) (i : Immediate) : Immediate :=
  {| const_kind := const_kind i; string_kind := string_kind i;
     num_index := num_index i; u := v |}.

(** Reading a member.  The code reads the member its discriminants select;
    a member that was not the last one stored reads as zero here. *)
Definition v_bool (i : Immediate) : Z :=
  match u i with U_bool v => v | _ => 0 end.
Definition v_int8 (i : Immediate) : Z :=
  match u i with U_int8 v => v | _ => 0 end.
Definition v_int16 (i : Immediate) : Z :=
  match u i with U_int16 v => v | _ => 0 end.
Definition v_int32 (i : Immediate) : Z :=
  match u i with U_int32 v => v | _ => 0 end.
Definition v_int64 (i : Immediate) : Z :=
  match u i with U_int64 v => v | _ => 0 end.
Definition v_uint8 (i : Immediate) : Z :=
  match u i with U_uint8 v => v | _ => 0 end.
Definition v_uint16 (i : Immediate) : Z :=
  match u i with U_uint16 v => v | _ => 0 end.
Definition v_uint32 (i : Immediate) : Z :=
  match u i with U_uint32 v => v | _ => 0 end.
Definition v_uint64 (i : Immediate) : Z :=
  match u i with U_uint64 v => v | _ => 0 end.
Definition v_float32 (i : Immediate) : float :=
  match u i with U_float32 v => v | _ => double_zero end.
Definition v_float64 (i : Immediate) : double :=
  match u i with U_float64 v => v | _ => double_zero end.
Definition v_complex64 (i : Immediate) : float * float :=
  match u i with U_complex64 r i => (r, i) | _ => (double_zero, double_zero) end.
Definition v_complex128 (i : Immediate) : double * double :=
  match u i with U_complex128 r i => (r, i) | _ => (double_zero, double_zero) end.
Definition v_string (i : Immediate) : string :=
  match u i with U_string v => v | _ => EmptyString end.

(** Conversion to a signed or an unsigned integer of [w] bits. *)
Definition to_signed (w z : Z) : Z :=
  let m := z mod 2 ^ w in if m <? 2 ^ (w - 1) then m else m - 2 ^ w.
Definition to_unsigned (w z : Z) : Z := z mod 2 ^ w.

(** The qualifier of a [QualifiedType]; the code names [PARAM] only. *)
Inductive Qualifier : Type :=
| PARAM
| QUALIFIER_OTHER (n : nat).

(** [QualifiedType]: a qualifier, a [const Type*] and a [const Param*], the
    pointers being [None] when null. *)
Record QualifiedType := {
  kind : Qualifier;
  type : option Type_;
  param : option Param
}.

Definition hasTypePtr (q : QualifiedType) : bool := bool_decide (is_Some (type q)).
Definition hasParamPtr (q : QualifiedType) : bool := bool_decide (is_Some (param q)).

(** ** Interning *)

Module Interning.

(** An instance is known by its address. *)
Definition addr := positive.

Definition encode_float (f : spec_float)
  : bool + (bool + (unit + bool * positive * Z)) :=
  match f with
  | S754_zero s => inl s
  | S754_infinity s => inr (inl s)
  | S754_nan => inr (inr (inl tt))
  | S754_finite s m e => inr (inr (inr (s, m, e)))
  end.

Definition decode_float (x : bool + (bool + (unit + bool * positive * Z)))
  : spec_float :=
  match x with
  | inl s => S754_zero s
  | inr (inl s) => S754_infinity s
  | inr (inr (inl _)) => S754_nan
  | inr (inr (inr (s, m, e))) => S754_finite s m e
  end.

#[global] Instance spec_float_countable : Countable spec_float.
Proof. apply (inj_countable' encode_float decode_float). by intros []. Defined.

Definition encode_param (p : Param)
  : bool + (spec_float * spec_float) + string + Z + unit + spec_float
    + string + Z :=
  match p with
  | BoolParam v => inl (inl (inl (inl (inl (inl (inl v))))))
  | ComplexParam v => inl (inl (inl (inl (inl (inl (inr (re v, im v)))))))
  | EnumParam v => inl (inl (inl (inl (inl (inr v)))))
  | IntParam v => inl (inl (inl (inl (inr v))))
  | NoneParam => inl (inl (inl (inr tt)))
  | RealParam v => inl (inl (inr v))
  | StringParam v => inl (inr v)
  | UintParam v => inr v
  end.

Definition decode_param
  (x : bool + (spec_float * spec_float) + string + Z + unit + spec_float
       + string + Z) : Param :=
  match x with
  | inl (inl (inl (inl (inl (inl (inl v)))))) => BoolParam v
  | inl (inl (inl (inl (inl (inl (inr (r, i))))))) =>
      ComplexParam {| re := r; im := i |}
  | inl (inl (inl (inl (inl (inr v))))) => EnumParam v
  | inl (inl (inl (inl (inr v)))) => IntParam v
  | inl (inl (inl (inr _))) => NoneParam
  | inl (inl (inr v)) => RealParam v
  | inl (inr v) => StringParam v
  | inr v => UintParam v
  end.

#[global] Instance Param_countable : Countable Param.
Proof.
  apply (inj_countable' encode_param decode_param).
  by intros [| [] | | | | | |].
Defined.

(** Modelled from the spec: the compilation context of the query framework
    (query-impl.h is not among the sources), with its "context-scoped
    interning table keyed by constructor arguments, guaranteeing a single
    canonical instance per distinct value": the results recorded for the
    getters, keyed by getter and argument, that is by kind and value; the
    objects the context owns; and the next free address. *)
Record Context := {
  results : gmap Param addr;
  objects : gmap addr Param;
  next : addr
}.

Definition Context_empty : Context :=
  {| results := ∅; objects := ∅; next := 1%positive |}.

(** Modelled from the spec: [QUERY_BEGIN].  The getter "returns the single
    canonical instance for that (kind, value) pair -- ... if one exists it is
    returned unchanged": a recorded result ends the call. *)
Definition QUERY_BEGIN (context : Context) (key : Param) : option addr :=
  results context !! key.

(** [toOwned(new NAME(value))] *)
Definition new (context : Context) (obj : Param) : addr * Context :=
  (next context,
   {| results := results context;
      objects := <[next context := obj]> (objects context);
      next := Pos.succ (next context) |}).

(** Modelled from the spec: [QUERY_END].  "If no instance exists yet it is
    constructed and recorded": the result is recorded and returned. *)
Definition QUERY_END (context : Context) (key : Param) (result : addr)
  : addr * Context :=
  (result,
   {| results := <[key := result]> (results context);
      objects := objects context;
      next := next context |}).

(** The getter [PARAM_NODE] defines for each class. *)
Definition getParam (context : Context) (value : Param) : addr * Context :=
  match QUERY_BEGIN context value with
  | Some hit => (hit, context)
  | None =>
      let '(result, context) := new context value in
      QUERY_END context value result
  end.

Definition getBoolParam c (v : bool) := getParam c (BoolParam v).
Definition getComplexParam c (v : ComplexDouble) := getParam c (ComplexParam v).
Definition getEnumParam c (v : string) := getParam c (EnumParam v).
Definition getIntParam c (v : Z) := getParam c (IntParam v).
Definition getNoneParam c := getParam c NoneParam.
Definition getRealParam c (v : double) := getParam c (RealParam v).
Definition getStringParam c (v : string) := getParam c (StringParam v).
Definition getUintParam c (v : Z) := getParam c (UintParam v).

(** The context after a sequence of getter calls. *)
Definition after (calls : list Param) (context : Context) : Context :=
  foldl (fun c v => (getParam c v).2) context calls.

(** The contexts the getters build: a recorded instance is an object of the
    context that holds the value it is recorded for, and no object lies at
    or above the next free address. *)
Definition consistent (context : Context) : Prop :=
  (forall value inst, results context !! value = Some inst ->
                      objects context !! inst = Some value)
  /\ (forall inst, (next context <= inst)%positive ->
                   objects context !! inst = None).

End Interning.

Import Interning.

(** ** Between Params and Immediates *)

(** Following a [const Type*]; following the null pointer ends the run. *)
Definition deref {A : Type} (ptr : option A) : outcome A :=
  match ptr with
  | Some x => Ret x
  | None => Abort "null pointer dereferenced"
  end.

(** [getImmediateValueOrEmpty]: the value of the Param when there is one,
    the empty value otherwise; the caller converts it to the member's type. *)
Definition getImmediateValueOrEmpty_Bool (p : option Param) : bool :=
  match p with Some (BoolParam v) => v | _ => false end.
Definition getImmediateValueOrEmpty_Int (p : option Param) : Z :=
  match p with Some (IntParam v) => v | _ => 0 end.
Definition getImmediateValueOrEmpty_Uint (p : option Param) : Z :=
  match p with Some (UintParam v) => v | _ => 0 end.
Definition getImmediateValueOrEmpty_Real (p : option Param) : double :=
  match p with Some (RealParam v) => v | _ => double_zero end.
Definition getImmediateValueOrEmpty_Complex (p : option Param) : ComplexDouble :=
  match p with
  | Some (ComplexParam v) => v
  | _ => {| re := double_zero; im := double_zero |}
  end.
Definition getImmediateValueOrEmpty_String (p : option Param) : string :=
  match p with Some (StringParam v) => v | _ => EmptyString end.

Definition guessParamTagFromType (t : Type_) : outcome paramtags.ParamTag :=
  if isBoolType t then Ret paramtags.BoolParam
  else if isComplexType t then Ret paramtags.ComplexParam
  else if isIntType t then Ret paramtags.IntParam
  else if isUintType t then Ret paramtags.UintParam
  else if isRealType t then Ret paramtags.RealParam
  else if isImagType t then Ret paramtags.RealParam
  else if isStringType t then Ret paramtags.StringParam
  else if isBytesType t then Ret paramtags.StringParam
  else if isCStringType t then Ret paramtags.StringParam
  else if isNothingType t then Ret paramtags.NoneParam
  else
    CHPL_ASSERT false "case not handled" ;;
    Ret paramtags.NoneParam.

Definition paramToImmediate (p : option Param) (t : option Type_)
  : outcome Immediate :=
  let ret := Immediate_default in
  tag ← match p with
        | Some p' => Ret (tag p')
        | None => t' ← deref t; guessParamTagFromType t'
        end;
  let IntParam_case : outcome Immediate :=
    let ip := p in
    t' ← deref t;
    let it := toIntType t' in
    CHPL_ASSERT (bool_decide (is_Some it)) "it" ;;
    match it with
    | None => Ret ret
    | Some bitwidth =>
        let ret := set_const_kind NUM_KIND_INT ret in
        if bitwidth =? 8 then
          let ret := set_num_index INT_SIZE_8 ret in
          Ret (store (U_int8 (to_signed 8 (getImmediateValueOrEmpty_Int ip))) ret)
        else if bitwidth =? 16 then
          let ret := set_num_index INT_SIZE_16 ret in
          Ret (store (U_int16 (to_signed 16 (getImmediateValueOrEmpty_Int ip))) ret)
        else if bitwidth =? 32 then
          let ret := set_num_index INT_SIZE_32 ret in
          Ret (store (U_int32 (to_signed 32 (getImmediateValueOrEmpty_Int ip))) ret)
        else if bitwidth =? 64 then
          let ret := set_num_index INT_SIZE_64 ret in
          Ret (store (U_int64 (to_signed 64 (getImmediateValueOrEmpty_Int ip))) ret)
        else
          CHPL_ASSERT false "case not handled" ;;
          Ret ret
    end in
  match tag with
  | paramtags.BoolParam =>
      let bp := p in
      let v := getImmediateValueOrEmpty_Bool bp in
      let ret := set_const_kind NUM_KIND_BOOL ret in
      let ret := set_num_index BOOL_SIZE_SYS ret in
      Ret (store (U_bool (Z.b2z v)) ret)
  | paramtags.ComplexParam =>
      let cp := p in
      let v := getImmediateValueOrEmpty_Complex cp in
      t' ← deref t;
      let ct := toComplexType t' in
      CHPL_ASSERT (bool_decide (is_Some ct)) "ct" ;;
      match ct with
      | None => Ret ret
      | Some bitwidth =>
          let ret := set_const_kind NUM_KIND_COMPLEX ret in
          if bitwidth =? 64 then
            let ret := set_num_index COMPLEX_SIZE_64 ret in
            Ret (store (U_complex64 (double_to_float (re v))
                                    (double_to_float (im v))) ret)
          else if bitwidth =? 128 then
            let ret := set_num_index COMPLEX_SIZE_128 ret in
            Ret (store (U_complex128 (re v) (im v)) ret)
          else
            CHPL_ASSERT false "case not handled" ;;
            Ret ret
      end
  | paramtags.EnumParam =>
      CHPL_ASSERT false "case not handled" ;;
      IntParam_case
  | paramtags.IntParam => IntParam_case
  | paramtags.NoneParam =>
      let ret := set_const_kind NUM_KIND_BOOL ret in
      let ret := set_num_index BOOL_SIZE_SYS ret in
      Ret (store (U_bool (Z.b2z false)) ret)
  | paramtags.RealParam =>
      let rp := p in
      t' ← deref t;
      match toRealType t' with
      | Some bitwidth =>
          let ret := set_const_kind NUM_KIND_REAL ret in
          if bitwidth =? 32 then
            let ret := set_num_index FLOAT_SIZE_32 ret in
            Ret (store (U_float32
                          (double_to_float (getImmediateValueOrEmpty_Real rp))) ret)
          else if bitwidth =? 64 then
            let ret := set_num_index FLOAT_SIZE_64 ret in
            Ret (store (U_float64 (getImmediateValueOrEmpty_Real rp)) ret)
          else
            CHPL_ASSERT false "case not handled" ;;
            Ret ret
      | None =>
          match toImagType t' with
          | Some bitwidth =>
              let ret := set_const_kind NUM_KIND_IMAG ret in
              if bitwidth =? 32 then
                let ret := set_num_index FLOAT_SIZE_32 ret in
                Ret (store (U_float32
                              (double_to_float (getImmediateValueOrEmpty_Real rp)))
                           ret)
              else if bitwidth =? 64 then
                let ret := set_num_index FLOAT_SIZE_64 ret in
                Ret (store (U_float64 (getImmediateValueOrEmpty_Real rp)) ret)
              else
                CHPL_ASSERT false "case not handled" ;;
                Ret ret
          | None =>
              CHPL_ASSERT false "case not handled" ;;
              Ret ret
          end
      end
  | paramtags.StringParam =>
      let sp := p in
      let v := getImmediateValueOrEmpty_String sp in
      let ret := set_const_kind CONST_KIND_STRING ret in
      t' ← deref t;
      if isStringType t' then
        let ret := set_string_kind STRING_KIND_STRING ret in
        let ret := set_num_index NUM_INDEX_0 ret in
        Ret (store (U_string v) ret)
      else if isBytesType t' then
        let ret := set_string_kind STRING_KIND_BYTES ret in
        let ret := set_num_index NUM_INDEX_0 ret in
        Ret (store (U_string v) ret)
      else if isCStringType t' then
        let ret := set_string_kind STRING_KIND_C_STRING ret in
        let ret := set_num_index NUM_INDEX_0 ret in
        Ret (store (U_string v) ret)
      else
        CHPL_ASSERT false "case not handled" ;;
        Ret ret
  | paramtags.UintParam =>
      let up := p in
      t' ← deref t;
      let ut := toUintType t' in
      CHPL_ASSERT (bool_decide (is_Some ut)) "ut" ;;
      match ut with
      | None => Ret ret
      | Some bitwidth =>
          let ret := set_const_kind NUM_KIND_UINT ret in
          if bitwidth =? 8 then
            let ret := set_num_index INT_SIZE_8 ret in
            Ret (store (U_uint8 (to_unsigned 8 (getImmediateValueOrEmpty_Uint up))) ret)
          else if bitwidth =? 16 then
            let ret := set_num_index INT_SIZE_16 ret in
            Ret (store (U_uint16 (to_unsigned 16 (getImmediateValueOrEmpty_Uint up))) ret)
          else if bitwidth =? 32 then
            let ret := set_num_index INT_SIZE_32 ret in
            Ret (store (U_uint32 (to_unsigned 32 (getImmediateValueOrEmpty_Uint up))) ret)
          else if bitwidth =? 64 then
            let ret := set_num_index INT_SIZE_64 ret in
            Ret (store (U_uint64 (to_unsigned 64 (getImmediateValueOrEmpty_Uint up))) ret)
          else
            CHPL_ASSERT false "case not handled" ;;
            Ret ret
      end
  end.

(** The getters [NAME::get(context, value)] and [T::get(context, ...)] hand
    out the canonical instance of the context, never the null pointer; an
    instance is written here as the value it holds. *)
Definition BoolParam_get (context : Context) (v : bool) : option Param :=
  Some (BoolParam v).
Definition IntParam_get (context : Context) (v : Z) : option Param :=
  Some (IntParam v).
Definition UintParam_get (context : Context) (v : Z) : option Param :=
  Some (UintParam v).
Definition RealParam_get (context : Context) (v : double) : option Param :=
  Some (RealParam v).
Definition ComplexParam_get (context : Context) (v : ComplexDouble) : option Param :=
  Some (ComplexParam v).
Definition StringParam_get (context : Context) (v : string) : option Param :=
  Some (StringParam v).

Definition BoolType_get (context : Context) : option Type_ := Some BoolType.
Definition IntType_get (context : Context) (w : Z) : option Type_ := Some (IntType w).
Definition UintType_get (context : Context) (w : Z) : option Type_ := Some (UintType w).
Definition RealType_get (context : Context) (w : Z) : option Type_ := Some (RealType w).
Definition ImagType_get (context : Context) (w : Z) : option Type_ := Some (ImagType w).
Definition ComplexType_get (context : Context) (w : Z) : option Type_ :=
  Some (ComplexType w).
Definition getStringType (context : Context) : option Type_ := Some StringType.
Definition getBytesType (context : Context) : option Type_ := Some BytesType.
Definition CStringType_get (context : Context) : option Type_ := Some CStringType.

(** The switch of [immediateToParam] has no [break]: a case whose inner
    switch matches nothing runs on into the next case.  The cases are named
    here from the last to the first. *)
Definition immediateToParam (context : Context) (imm : Immediate)
  : outcome (option Param * option Type_) :=
  let after_switch : outcome (option Param * option Type_) :=
    Ret (None, None) in
  let default_case :=
    CHPL_ASSERT false "case not handled" ;; after_switch in
  let UINT_case :=
    match num_index imm with
    | INT_SIZE_8 => Ret (UintParam_get context (v_uint8 imm), UintType_get context 8)
    | INT_SIZE_16 => Ret (UintParam_get context (v_uint16 imm), UintType_get context 16)
    | INT_SIZE_32 => Ret (UintParam_get context (v_uint32 imm), UintType_get context 32)
    | INT_SIZE_64 => Ret (UintParam_get context (v_uint64 imm), UintType_get context 64)
    | _ => CHPL_ASSERT false "case not handled" ;; default_case
    end in
  let COMPLEX_case :=
    match num_index imm with
    | COMPLEX_SIZE_64 =>
        Ret (ComplexParam_get context
               {| re := float_to_double (v_complex64 imm).1;
                  im := float_to_double (v_complex64 imm).2 |},
             ComplexType_get context 64)
    | COMPLEX_SIZE_128 =>
        Ret (ComplexParam_get context
               {| re := (v_complex128 imm).1; im := (v_complex128 imm).2 |},
             ComplexType_get context 128)
    | _ => CHPL_ASSERT false "case not handled" ;; UINT_case
    end in
  let IMAG_case :=
    match num_index imm with
    | FLOAT_SIZE_32 =>
        Ret (RealParam_get context (float_to_double (v_float32 imm)),
             ImagType_get context 32)
    | FLOAT_SIZE_64 =>
        Ret (RealParam_get context (v_float64 imm), ImagType_get context 64)
    | _ => CHPL_ASSERT false "case not handled" ;; COMPLEX_case
    end in
  let REAL_case :=
    match num_index imm with
    | FLOAT_SIZE_32 =>
        Ret (RealParam_get context (float_to_double (v_float32 imm)),
             RealType_get context 32)
    | FLOAT_SIZE_64 =>
        Ret (RealParam_get context (v_float64 imm), RealType_get context 64)
    | _ => CHPL_ASSERT false "case not handled" ;; IMAG_case
    end in
  let STRING_case :=
    (* the three string kinds are all there are: nothing runs on from here *)
    match string_kind imm with
    | STRING_KIND_STRING =>
        Ret (StringParam_get context (v_string imm), getStringType context)
    | STRING_KIND_BYTES =>
        Ret (StringParam_get context (v_string imm), getBytesType context)
    | STRING_KIND_C_STRING =>
        Ret (StringParam_get context (v_string imm), CStringType_get context)
    end in
  let BOOL_case :=
    Ret (BoolParam_get context (negb (v_bool imm =? 0)), BoolType_get context) in
  let INT_case :=
    match num_index imm with
    | INT_SIZE_8 => Ret (IntParam_get context (v_int8 imm), IntType_get context 8)
    | INT_SIZE_16 => Ret (IntParam_get context (v_int16 imm), IntType_get context 16)
    | INT_SIZE_32 => Ret (IntParam_get context (v_int32 imm), IntType_get context 32)
    | INT_SIZE_64 => Ret (IntParam_get context (v_int64 imm), IntType_get context 64)
    | _ => CHPL_ASSERT false "case not handled" ;; BOOL_case
    end in
  match const_kind imm with
  | NUM_KIND_INT => INT_case
  | NUM_KIND_BOOL => BOOL_case
  | CONST_KIND_STRING => STRING_case
  | NUM_KIND_REAL => REAL_case
  | NUM_KIND_IMAG => IMAG_case
  | NUM_KIND_COMPLEX => COMPLEX_case
  | NUM_KIND_UINT => UINT_case
  | _ => default_case
  end.

(** ** Folding *)

Section Fold.

(** The evaluator of immediates/num.cpp and [QualifiedType::isUnknown] are
    not among the sources; [Param::fold] is read for any of them.
    [fold_constant] receives the operator, the operands (the second may be
    the null pointer) and the result Immediate it fills in;
    [coerce_immediate] receives the source and the destination it fills
    in. *)
Variable fold_constant :
  Context -> PrimitiveTag -> Immediate -> option Immediate -> Immediate ->
  outcome Immediate.
Variable coerce_immediate :
  Context -> Immediate -> Immediate -> outcome Immediate.
Variable isUnknown : QualifiedType -> bool.

Definition handleParamCast (context : Context) (a b : QualifiedType)
  : outcome QualifiedType :=
  aImm ← paramToImmediate (param a) (type a);
  bImm ← paramToImmediate None (type b);
  bImm ← coerce_immediate context aImm bImm;
  pair ← immediateToParam context bImm;
  Ret {| kind := PARAM; type := pair.2; param := pair.1 |}.

Definition fold (context : Context) (op : PrimitiveTag) (a b : QualifiedType)
  : outcome QualifiedType :=
  CHPL_ASSERT (hasTypePtr a && hasParamPtr a) "a.hasTypePtr() && a.hasParamPtr()" ;;
  aImm ← paramToImmediate (param a) (type a);
  let result := Immediate_default in
  let immOp := op in
  if bool_decide (op = PRIM_CAST) then
    handleParamCast context a b
  else
    (if negb (isParamOpFoldable op)
     then CHPL_ASSERT false "param primitive op not foldable"
     else Ret tt) ;;
    result ← (if isUnknown b then
                fold_constant context immOp aImm None result
              else
                CHPL_ASSERT (hasTypePtr b && hasParamPtr b)
                            "b.hasTypePtr() && b.hasParamPtr()" ;;
                bImm ← paramToImmediate (param b) (type b);
                fold_constant context immOp aImm (Some bImm) result);
    pair ← immediateToParam context result;
    Ret {| kind := PARAM; type := pair.2; param := pair.1 |}.

End Fold.

(** ** The evaluator *)

Section Evaluator.

(** What the specification leaves open -- floating-point, complex and string
    operands, operands of two shapes, integer roots and negative powers -- is
    left to [other_fold] and [other_coerce]. *)
Variable other_fold :
  PrimitiveTag -> Immediate -> option Immediate -> Immediate -> outcome Immediate.
Variable other_coerce : Immediate -> Immediate -> outcome Immediate.

Definition int_bits (n : num_index_t) : option Z :=
  match n with
  | INT_SIZE_8 => Some 8
  | INT_SIZE_16 => Some 16
  | INT_SIZE_32 => Some 32
  | INT_SIZE_64 => Some 64
  | _ => None
  end.

(** An integer Immediate: its signedness, its width selector and the value
    of the member they select. *)
Definition as_integer (imm : Immediate) : option (bool * num_index_t * Z) :=
  match const_kind imm, num_index imm with
  | NUM_KIND_INT, INT_SIZE_8 => Some (true, INT_SIZE_8, v_int8 imm)
  | NUM_KIND_INT, INT_SIZE_16 => Some (true, INT_SIZE_16, v_int16 imm)
  | NUM_KIND_INT, INT_SIZE_32 => Some (true, INT_SIZE_32, v_int32 imm)
  | NUM_KIND_INT, INT_SIZE_64 => Some (true, INT_SIZE_64, v_int64 imm)
  | NUM_KIND_UINT, INT_SIZE_8 => Some (false, INT_SIZE_8, v_uint8 imm)
  | NUM_KIND_UINT, INT_SIZE_16 => Some (false, INT_SIZE_16, v_uint16 imm)
  | NUM_KIND_UINT, INT_SIZE_32 => Some (false, INT_SIZE_32, v_uint32 imm)
  | NUM_KIND_UINT, INT_SIZE_64 => Some (false, INT_SIZE_64, v_uint64 imm)
  | _, _ => None
  end.

(** Storing an integer at a shape wraps it to the width. *)
Definition int_member (signed : bool) (n : num_index_t) (z : Z) : imm_union :=
  match signed, n with
  | true, INT_SIZE_8 => U_int8 (to_signed 8 z)
  | true, INT_SIZE_16 => U_int16 (to_signed 16 z)
  | true, INT_SIZE_32 => U_int32 (to_signed 32 z)
  | true, INT_SIZE_64 => U_int64 (to_signed 64 z)
  | false, INT_SIZE_8 => U_uint8 (to_unsigned 8 z)
  | false, INT_SIZE_16 => U_uint16 (to_unsigned 16 z)
  | false, INT_SIZE_32 => U_uint32 (to_unsigned 32 z)
  | false, INT_SIZE_64 => U_uint64 (to_unsigned 64 z)
  | _, _ => U_none
  end.

Definition put_int (signed : bool) (n : num_index_t) (z : Z) (imm : Immediate)
  : Immediate :=
  store (int_member signed n z)
    (set_num_index n
       (set_const_kind (if signed then NUM_KIND_INT else NUM_KIND_UINT) imm)).

Definition put_bool (b : bool) (imm : Immediate) : Immediate :=
  store (U_bool (Z.b2z b))
    (set_num_index BOOL_SIZE_SYS (set_const_kind NUM_KIND_BOOL imm)).

(** Modelled from the spec: is the constant zero ("division/modulo by
    zero")? *)
Definition is_float_zero (f : spec_float) : bool :=
  match f with S754_zero _ => true | _ => false end.

Definition imm_is_zero (imm : Immediate) : bool :=
  match const_kind imm with
  | NUM_KIND_BOOL => v_bool imm =? 0
  | NUM_KIND_INT | NUM_KIND_UINT =>
      match as_integer imm with
      | Some (_, _, z) => z =? 0
      | None => false
      end
  | NUM_KIND_REAL | NUM_KIND_IMAG =>
      match num_index imm with
      | FLOAT_SIZE_32 => is_float_zero (v_float32 imm)
      | FLOAT_SIZE_64 => is_float_zero (v_float64 imm)
      | _ => false
      end
  | NUM_KIND_COMPLEX =>
      match num_index imm with
      | COMPLEX_SIZE_64 =>
          is_float_zero (v_complex64 imm).1 && is_float_zero (v_complex64 imm).2
      | COMPLEX_SIZE_128 =>
          is_float_zero (v_complex128 imm).1 && is_float_zero (v_complex128 imm).2
      | _ => false
      end
  | _ => false
  end.

Definition is_div_or_mod (op : PrimitiveTag) : bool :=
  match op with P_prim_div | P_prim_mod => true | _ => false end.

Definition is_shift (op : PrimitiveTag) : bool :=
  match op with P_prim_lsh | P_prim_rsh => true | _ => false end.

(** Modelled from the spec: the integer operators of the evaluator with an
    integer result, before the result is wrapped to the width. *)
Definition int_binary (op : PrimitiveTag) (x y : Z) : option Z :=
  match op with
  | P_prim_pow => if 0 <=? y then Some (x ^ y) else None
  | P_prim_mult => Some (x * y)
  | P_prim_div => Some (Z.quot x y)
  | P_prim_mod => Some (Z.rem x y)
  | P_prim_add => Some (x + y)
  | P_prim_subtract => Some (x - y)
  | P_prim_lsh => Some (Z.shiftl x y)
  | P_prim_rsh => Some (Z.shiftr x y)
  | P_prim_and => Some (Z.land x y)
  | P_prim_xor => Some (Z.lxor x y)
  | P_prim_or => Some (Z.lor x y)
  | _ => None
  end.

(** Modelled from the spec: the operators with a boolean result
    ("comparisons always yield boolean"). *)
Definition int_compare (op : PrimitiveTag) (x y : Z) : option bool :=
  match op with
  | P_prim_less => Some (x <? y)
  | P_prim_lessorequal => Some (x <=? y)
  | P_prim_greater => Some (y <? x)
  | P_prim_greaterorequal => Some (y <=? x)
  | P_prim_equal => Some (x =? y)
  | P_prim_notequal => Some (negb (x =? y))
  | P_prim_land => Some (negb (x =? 0) && negb (y =? 0))
  | P_prim_lor => Some (negb (x =? 0) || negb (y =? 0))
  | _ => None
  end.

Definition int_unary (op : PrimitiveTag) (x : Z) : option Z :=
  match op with
  | P_prim_plus => Some x
  | P_prim_minus => Some (- x)
  | P_prim_not => Some (Z.lnot x)
  | P_prim_abs => Some (Z.abs x)
  | _ => None
  end.

(** Modelled from the spec: [fold_constant] (immediates/num.cpp is not among
    the sources).  "The evaluator computes the numeric result at the bit
    width implied by operand A's Immediate (and B's, when both are concrete)
    ...: integer results wrap modulo their width (2's complement) rather than
    trapping, division/modulo by zero and invalid shift amounts are reported
    as evaluator errors (propagated, not silently zeroed), comparisons always
    yield boolean, bitwise/shift operators require integer-kind operands". *)
Definition fold_constant (context : Context) (op : PrimitiveTag)
    (aim1 : Immediate) (aim2 : option Immediate) (imm : Immediate)
  : outcome Immediate :=
  if is_div_or_mod op && from_option imm_is_zero false aim2 then
    EvalError "division by zero"
  else
    match as_integer aim1, aim2 with
    | Some (signed, n, x), Some im2 =>
        match as_integer im2, int_bits n with
        | Some (signed2, n2, y), Some w =>
            if bool_decide (signed = signed2 /\ n = n2) then
              if is_shift op && ((y <? 0) || (w <=? y)) then
                EvalError "invalid shift amount"
              else
                match int_binary op x y, int_compare op x y with
                | Some z, _ => Ret (put_int signed n z imm)
                | None, Some b => Ret (put_bool b imm)
                | None, None => other_fold op aim1 aim2 imm
                end
            else other_fold op aim1 aim2 imm
        | _, _ => other_fold op aim1 aim2 imm
        end
    | Some (signed, n, x), None =>
        match int_unary op x with
        | Some z => Ret (put_int signed n z imm)
        | None =>
            if bool_decide (op = P_prim_lnot) then Ret (put_bool (x =? 0) imm)
            else other_fold op aim1 aim2 imm
        end
    | None, _ => other_fold op aim1 aim2 imm
    end.

(** Modelled from the spec: [coerce_immediate] (immediates/num.cpp is not
    among the sources).  A cast converts "the source value to an Immediate of
    the destination type's shape, performing any necessary
    narrowing/widening/representation change"; between integers it
    "truncates per modular (wraparound) semantics". *)
Definition coerce_immediate (context : Context) (from to : Immediate)
  : outcome Immediate :=
  match as_integer from, as_integer to with
  | Some (_, _, z), Some (signed, n, _) => Ret (put_int signed n z to)
  | _, _ => other_coerce from to
  end.

End Evaluator.

(** A typed constant operand. *)
Definition operand (t : Type_) (p : Param) : QualifiedType :=
  {| kind := PARAM; type := Some t; param := Some p |}.

(** ** What the specification says, in its own words *)

(** "a fixed allow-list (power, multiply, divide, modulo, add, subtract,
    shift-left, shift-right, the six relational/equality comparisons, bitwise
    and/or/xor, logical and/or, unary plus/minus/not/logical-not, absolute
    value, square root)" *)
Definition allow_list : list PrimitiveTag :=
  [ P_prim_pow; P_prim_mult; P_prim_div; P_prim_mod; P_prim_add;
    P_prim_subtract; P_prim_lsh; P_prim_rsh;
    P_prim_less; P_prim_lessorequal; P_prim_greater; P_prim_greaterorequal;
    P_prim_equal; P_prim_notequal;
    P_prim_and; P_prim_or; P_prim_xor;
    P_prim_land; P_prim_lor;
    P_prim_plus; P_prim_minus; P_prim_not; P_prim_lnot;
    P_prim_abs; P_prim_sqrt ].

(** A literal with a radix prefix: the prefix, redundant zeros, and the text
    that remains once they are stripped. *)
Definition literal (x : ascii) (zeros : nat) (body : cstr) : cstr :=
  "0"%char :: x :: repeat "0"%char zeros ++ body.

(** The digit set of a radix. *)
Definition radix_digit (radix : Z) (c : ascii) : bool :=
  bool_decide (is_Some (digit_of radix c)).

(** The value of a string of decimal digits. *)
Definition dec_step (acc : Z) (c : ascii) : Z := acc * 10 + (code c - 48).

Definition decimal_value (ds : cstr) : Z := foldl dec_step 0 ds.

(** A number written without redundant zeros: digits, the first of which is
    not 0 unless it is the only one. *)
Definition is_digit (c : ascii) : Prop := 48 <= code c <= 57.

Definition canonical (ds : cstr) : Prop :=
  ds <> [] /\ Forall is_digit ds /\ (head ds <> Some "0"%char \/ length ds = 1%nat).

(** "after parsing, re-render the parsed magnitude as text and compare
    against the (zero-stripped) input; a mismatch signals silent overflow" *)
Definition round_trips (parsed_value : Z) (digits : cstr) : bool :=
  bool_decide (format_u64 parsed_value = digits).

(** The round trip of a Param and its type through an Immediate. *)
Definition round_trip (context : Context) (p : Param) (t : Type_)
  : outcome (option Param * option Type_) :=
  imm ← paramToImmediate (Some p) (Some t);
  immediateToParam context imm.

Definition round_trip_ok (context : Context) (p : Param) (t : Type_) : Prop :=
  exists p', round_trip context p t = Ret (Some p', Some t)
             /\ completeMatch p' p = true.

(** A Param and a concrete type that match, the type being wide enough for
    the value. *)
Definition int_width (w : Z) : bool :=
  bool_decide (w = 8 \/ w = 16 \/ w = 32 \/ w = 64).

Definition survives (w : Z) (narrow_at : Z) (v : double) : bool :=
  if w =? narrow_at then SFeqb (float_to_double (double_to_float v)) v
  else SFeqb v v.

Definition representable (p : Param) (t : Type_) : bool :=
  match p, t with
  | BoolParam _, BoolType => true
  | IntParam v, IntType w =>
      int_width w && (- 2 ^ (w - 1) <=? v) && (v <? 2 ^ (w - 1))
  | UintParam v, UintType w => int_width w && (0 <=? v) && (v <? 2 ^ w)
  | RealParam v, RealType w | RealParam v, ImagType w =>
      bool_decide (w = 32 \/ w = 64) && survives w 32 v
  | ComplexParam v, ComplexType w =>
      bool_decide (w = 64 \/ w = 128)
      && survives w 64 (re v) && survives w 64 (im v)
  | StringParam _, StringType
  | StringParam _, BytesType
  | StringParam _, CStringType => true
  | _, _ => false
  end.

(** ** Digit strings of any radix *)

(** The value of a digit, of any case. *)
Definition digit_value (c : ascii) : Z :=
  if between "0" "9" c then code c - 48
  else if between "a" "f" c then code c - 87
  else if between "A" "F" c then code c - 55
  else 0.

(** The value of a string of digits in a radix. *)
Definition radix_step (base : Z) (acc : Z) (c : ascii) : Z :=
  acc * base + digit_value c.

Definition radix_value (base : Z) (ds : cstr) : Z := foldl (radix_step base) 0 ds.

Definition is_bin_digit (c : ascii) : bool := between "0" "1" c.
Definition is_oct_digit (c : ascii) : bool := between "0" "7" c.

(** Text from which the redundant zeros are gone: it does not start with 0
    unless it is a single character. *)
Definition stripped (body : cstr) : Prop :=
  body <> [] /\ (head body <> Some "0"%char \/ length body = 1%nat).

(** A digit of radix [base]: a hexadecimal character whose value is below
    the radix. *)
Definition digit_in (base : Z) (c : ascii) : Prop :=
  is_hex_char c = true /\ digit_value c < base.

(** ** Types an Immediate can carry *)

(** The concrete types with an Immediate of their own. *)
Definition concrete_type (t : Type_) : bool :=
  match t with
  | BoolType | StringType | BytesType | CStringType => true
  | IntType w | UintType w => int_width w
  | RealType w | ImagType w => bool_decide (w = 32 \/ w = 64)
  | ComplexType w => bool_decide (w = 64 \/ w = 128)
  | NothingType | OtherType _ => false
  end.

(** The zero or empty Param of a type. *)
Definition zero_param (t : Type_) : Param :=
  match t with
  | IntType _ => IntParam 0
  | UintType _ => UintParam 0
  | RealType _ | ImagType _ => RealParam double_zero
  | ComplexType _ => ComplexParam {| re := double_zero; im := double_zero |}
  | StringType | BytesType | CStringType => StringParam EmptyString
  | _ => BoolParam false
  end.

(** A Param class and a type that fit: the class of the type, at a width
    an Immediate has.  A boolean Param and a none Param go with any type. *)
Definition fits (p : Param) (t : Type_) : bool :=
  match p, t with
  | BoolParam _, _ | NoneParam, _ => true
  | IntParam _, IntType w | UintParam _, UintType w => int_width w
  | RealParam _, RealType w | RealParam _, ImagType w =>
      bool_decide (w = 32 \/ w = 64)
  | ComplexParam _, ComplexType w => bool_decide (w = 64 \/ w = 128)
  | StringParam _, StringType
  | StringParam _, BytesType
  | StringParam _, CStringType => true
  | _, _ => false
  end.

(** Is the Param of a class whose Immediate is shaped by the type? *)
Definition typed_class (p : Param) : bool :=
  match p with
  | BoolParam _ | NoneParam => false
  | _ => true
  end.

(** ** Subclasses

    [BasicClassType::isSubtypeOf] (compiler/next/lib/types/BasicClassType.cpp)
    walks from a class along [parentClassType()] to the class without
    parent.  A class is written as isSubtypeOf sees it: its address and the
    address [instantiatedFrom()] returns, [None] being the null pointer; the
    walk is the list of the classes it visits, [this] first. *)

Module ClassTypes.

Record BasicClassType := {
  address : positive;
  instantiatedFrom : option positive
}.

(** The returned boolean and the two flags passed by reference. *)
Record answer := { is_subtype : bool; converts : bool; instantiates : bool }.

(** The C library's [assert]. *)
Definition assert (cond : bool) (what : string) : outcome unit :=
  if cond then Ret tt else Abort what.

(** [for (t = this; t != nullptr; t = t->parentClassType()) ...], the
    classes still to visit being [t :: parents]. *)
Fixpoint isSubtypeOf_loop (this : positive) (walk : list BasicClassType)
    (parentType : positive) (converts instantiates : bool) : answer :=
  match walk with
  | [] =>
      {| is_subtype := false; converts := converts; instantiates := instantiates |}
  | t :: parents =>
      if bool_decide (address t = parentType) then
        let converts :=
          if negb (bool_decide (address t = this)) then true else converts in
        {| is_subtype := true; converts := converts; instantiates := instantiates |}
      else if bool_decide (instantiatedFrom t = Some parentType) then
        let converts :=
          if negb (bool_decide (address t = this)) then true else converts in
        let instantiates := true in
        {| is_subtype := true; converts := converts; instantiates := instantiates |}
      else isSubtypeOf_loop this parents parentType converts instantiates
  end.

Definition isSubtypeOf (this : BasicClassType) (ancestors : list BasicClassType)
    (parentType : option positive) (converts instantiates : bool)
  : outcome answer :=
  assert (bool_decide (is_Some parentType)) "parentType != nullptr" ;;
  match parentType with
  | Some parentType =>
      Ret (isSubtypeOf_loop (address this) (this :: ancestors) parentType
             converts instantiates)
  | None => Abort "parentType != nullptr"
  end.

(** Does the class equal [parentType], or is it instantiated from it? *)
Definition matches (parentType : positive) (t : BasicClassType) : Prop :=
  address t = parentType \/ instantiatedFrom t = Some parentType.

#[global] Instance matches_dec parentType t : Decision (matches parentType t).
Proof. unfold matches. apply _. Defined.

End ClassTypes.

(** * Properties *)

(** ** Outcomes *)

Lemma bind_Ret {A B : Type} (m : outcome A) (k : A -> outcome B) (b : B) :
  m ≫= k = Ret b -> exists a, m = Ret a /\ k a = Ret b.
Proof. destruct m as [w|e|a]; simpl; intros H; try discriminate. by exists a. Qed.

(** ** Operators *)

Lemma isParamOpFoldable_iff (op : PrimitiveTag) :
  isParamOpFoldable op = true <-> op ∈ allow_list.
Proof.
  unfold allow_list. split.
  - destruct op; simpl; intros H; try discriminate; set_solver.
  - rewrite !elem_of_cons, elem_of_nil. intros H.
    repeat (destruct H as [-> | H]; [reflexivity|]). destruct H.
Qed.

(** ** Interning *)

Lemma getParam_hit (context : Context) (value : Param) (inst : addr) :
  results context !! value = Some inst ->
  getParam context value = (inst, context).
Proof. unfold getParam, QUERY_BEGIN. by intros ->. Qed.

Lemma getParam_recorded (context : Context) (value : Param) :
  results (getParam context value).2 !! value = Some (getParam context value).1.
Proof.
  unfold getParam, QUERY_BEGIN.
  destruct (results context !! value) eqn:E; simpl; [done|].
  apply lookup_insert_eq.
Qed.

Lemma getParam_keeps (context : Context) (value other : Param) (inst : addr) :
  results context !! value = Some inst ->
  results (getParam context other).2 !! value = Some inst.
Proof.
  intros H. unfold getParam, QUERY_BEGIN.
  destruct (results context !! other) eqn:E; simpl; [done|].
  rewrite lookup_insert_ne; [done|]. intros ->. congruence.
Qed.

Lemma after_keeps (calls : list Param) (context : Context) (value : Param)
    (inst : addr) :
  results context !! value = Some inst ->
  results (after calls context) !! value = Some inst.
Proof.
  revert context. induction calls as [|c calls IH]; intros context H; [done|].
  simpl. apply IH. by apply getParam_keeps.
Qed.

Lemma consistent_empty : consistent Context_empty.
Proof.
  split; simpl.
  - intros value inst H. by rewrite lookup_empty in H.
  - intros inst _. apply lookup_empty.
Qed.

Lemma getParam_consistent (context : Context) (value : Param) :
  consistent context -> consistent (getParam context value).2.
Proof.
  intros [Hobj Hfree]. unfold getParam, QUERY_BEGIN.
  destruct (results context !! value) eqn:E; simpl; [done|].
  assert (Hnext : objects context !! next context = None) by by apply Hfree.
  split; simpl.
  - intros k a. destruct (decide (value = k)) as [<-|Hne].
    + rewrite lookup_insert_eq. intros [= <-]. apply lookup_insert_eq.
    + rewrite lookup_insert_ne by done. intros Hk. apply Hobj in Hk.
      rewrite lookup_insert_ne; [done|]. intros <-. congruence.
  - intros a Ha. rewrite lookup_insert_ne by lia. apply Hfree. lia.
Qed.

(** The instance a getter returns holds the value asked for, and two values
    never share an instance: an instance and the value it holds determine
    each other. *)
Lemma getParam_object (context : Context) (value : Param) :
  consistent context ->
  objects (getParam context value).2 !! (getParam context value).1 = Some value.
Proof.
  intros H. apply (getParam_consistent _ value) in H as [Hobj _].
  apply Hobj, getParam_recorded.
Qed.

Lemma getParam_distinct (context : Context) (v w : Param) :
  consistent context -> v <> w ->
  (getParam context v).1 <> (getParam (getParam context v).2 w).1.
Proof.
  intros H Hne Heq.
  pose proof (getParam_consistent _ v H) as H1.
  pose proof (getParam_consistent _ w H1) as [Hobj _].
  pose proof (getParam_object _ w H1) as Hw.
  pose proof (getParam_keeps _ v w _ (getParam_recorded context v)) as Hv.
  apply Hobj in Hv. rewrite Heq in Hv. congruence.
Qed.

(** ** From an Immediate back to a Param *)

Lemma immediateToParam_non_null (context : Context) (imm : Immediate)
    (pair : option Param * option Type_) :
  immediateToParam context imm = Ret pair ->
  exists p t, pair = (Some p, Some t).
Proof.
  unfold immediateToParam.
  destruct (const_kind imm), (num_index imm), (string_kind imm);
    simpl; intros H; try discriminate; inversion H; eauto.
Qed.

Lemma to_signed_small (w z : Z) :
  0 < w -> - 2 ^ (w - 1) <= z < 2 ^ (w - 1) -> to_signed w z = z.
Proof.
  intros Hw Hz. unfold to_signed.
  assert (E : 2 ^ w = 2 * 2 ^ (w - 1)).
  { rewrite <- Z.pow_succ_r by lia. f_equal. lia. }
  destruct (Z_lt_le_dec z 0) as [Hn|Hp].
  - rewrite <- (Z_mod_plus_full z 1), Z.mod_small by lia.
    case_match; [apply Z.ltb_lt in H|]; lia.
  - rewrite Z.mod_small by lia.
    case_match; [|apply Z.ltb_ge in H]; lia.
Qed.

Lemma to_unsigned_small (w z : Z) :
  0 <= z < 2 ^ w -> to_unsigned w z = z.
Proof. intros Hz. unfold to_unsigned. by apply Z.mod_small. Qed.

Lemma to_signed_mod (w z : Z) :
  0 < w -> to_signed w z mod 2 ^ w = z mod 2 ^ w.
Proof.
  intros Hw. unfold to_signed.
  assert (0 < 2 ^ w) by (apply Z.pow_pos_nonneg; lia).
  case_match.
  - apply Z.mod_mod. lia.
  - rewrite <- (Z_mod_plus_full _ 1). replace (z mod 2 ^ w - 2 ^ w + 1 * 2 ^ w) with (z mod 2 ^ w) by lia.
    apply Z.mod_mod. lia.
Qed.

Lemma to_signed_add (w x y : Z) :
  0 < w -> to_signed w (to_signed w x + to_signed w y) = to_signed w (x + y).
Proof.
  intros Hw. unfold to_signed at 1 4.
  rewrite Z.add_mod, !to_signed_mod, <- Z.add_mod by (try apply Z.pow_nonzero; lia).
  reflexivity.
Qed.

Lemma to_unsigned_add (w x y : Z) :
  0 < w -> to_unsigned w (to_unsigned w x + to_unsigned w y) = to_unsigned w (x + y).
Proof.
  intros Hw. unfold to_unsigned.
  rewrite <- Z.add_mod by (apply Z.pow_nonzero; lia). reflexivity.
Qed.

(** [paramToImmediate] returns or fails an assertion: it raises no
    evaluator error. *)
Lemma paramToImmediate_no_EvalError (p : option Param) (t : option Type_)
    (e : string) :
  paramToImmediate p t <> EvalError e.
Proof.
  unfold paramToImmediate, guessParamTagFromType.
  destruct p as [[]|], t as [[]|]; simpl; try discriminate;
    repeat (case_match; simpl; try discriminate).
Qed.

(** ** The folding engine *)

(** C7.  [isParamOpFoldable] answers true exactly on the allow-list of the
    specification.  [PRIM_CAST] is not on the list, yet [Param::fold] hands a
    cast to [handleParamCast] without asking, and a cast can return a result.
    Every other operator off the list ends the fold in a failed assertion,
    whatever the operands and the evaluator. *)
Theorem fold_foldable_check :
  (forall op, isParamOpFoldable op = true <-> op ∈ allow_list)
  /\ isParamOpFoldable PRIM_CAST = false
  /\ (forall fold_constant coerce_immediate isUnknown context a b,
        fold fold_constant coerce_immediate isUnknown context PRIM_CAST a b =
        (CHPL_ASSERT (hasTypePtr a && hasParamPtr a)
                     "a.hasTypePtr() && a.hasParamPtr()" ;;
         paramToImmediate (param a) (type a) ;;
         handleParamCast coerce_immediate context a b))
  /\ (forall fold_constant isUnknown context,
        fold fold_constant (fun _ _ to => Ret to) isUnknown context PRIM_CAST
             (operand (IntType 64) (IntParam 1)) (operand (IntType 8) (IntParam 0))
        = Ret (operand (IntType 8) (IntParam 0)))
  /\ (forall fold_constant coerce_immediate isUnknown context op a b,
        op <> PRIM_CAST -> isParamOpFoldable op = false ->
        exists what,
          fold fold_constant coerce_immediate isUnknown context op a b = Abort what).
Proof.
  split; [exact isParamOpFoldable_iff|].
  split; [reflexivity|].
  split; [reflexivity|].
  split; [reflexivity|].
  intros fc ci iu context op a b Hcast Hnot. unfold fold.
  unfold CHPL_ASSERT at 1.
  destruct (hasTypePtr a && hasParamPtr a) eqn:Ea; simpl; [|eauto].
  destruct (paramToImmediate (param a) (type a)) as [w|e|aImm] eqn:Ei;
    simpl; [eauto| |].
  { by apply paramToImmediate_no_EvalError in Ei. }
  rewrite bool_decide_eq_false_2 by done. rewrite Hnot. simpl. eauto.
Qed.

Lemma fold_foldable_check_witness :
  exists what,
    fold (fold_constant (fun _ _ _ imm => Ret imm))
         (coerce_immediate (fun _ to => Ret to))
         (fun q => negb (hasTypePtr q))
         Context_empty (PRIM_OTHER 0)
         (operand (IntType 64) (IntParam 1)) (operand (IntType 64) (IntParam 2))
    = Abort what.
Proof.
  apply (proj2 (proj2 (proj2 (proj2 fold_foldable_check)))).
  - discriminate.
  - reflexivity.
Defined.

Lemma handleParamCast_returns_param coerce_immediate context a b q :
  handleParamCast coerce_immediate context a b = Ret q ->
  kind q = PARAM
  /\ exists imm p t,
       immediateToParam context imm = Ret (Some p, Some t)
       /\ type q = Some t /\ param q = Some p.
Proof.
  unfold handleParamCast. intros H.
  apply bind_Ret in H as (aImm & _ & H).
  apply bind_Ret in H as (bImm & _ & H).
  apply bind_Ret in H as (bImm' & _ & H).
  apply bind_Ret in H as (pair & Hpair & H).
  destruct (immediateToParam_non_null _ _ _ Hpair) as (p & t & ->).
  inversion H; subst; simpl. split; [done|]. by exists bImm', p, t.
Qed.

(** C10.  Whatever the evaluator, the coercion and the operands, a
    [QualifiedType] that [Param::fold] returns -- from the arithmetic path or
    from the cast path -- has the qualifier [PARAM] and carries the type and
    the Param that [immediateToParam] made of some Immediate, neither of them
    the null pointer. *)
Theorem fold_returns_param fold_constant coerce_immediate isUnknown
    context op a b q :
  fold fold_constant coerce_immediate isUnknown context op a b = Ret q ->
  kind q = PARAM
  /\ exists imm p t,
       immediateToParam context imm = Ret (Some p, Some t)
       /\ type q = Some t /\ param q = Some p.
Proof.
  unfold fold. intros H.
  apply bind_Ret in H as ([] & _ & H).
  apply bind_Ret in H as (aImm & _ & H).
  case_bool_decide as Hop.
  { by apply handleParamCast_returns_param in H. }
  apply bind_Ret in H as ([] & _ & H).
  apply bind_Ret in H as (result & _ & H).
  apply bind_Ret in H as (pair & Hpair & H).
  destruct (immediateToParam_non_null _ _ _ Hpair) as (p & t & ->).
  inversion H; subst; simpl. split; [done|]. by exists result, p, t.
Qed.

Lemma fold_returns_param_witness :
  kind (operand (IntType 8) (IntParam 44)) = PARAM
  /\ exists imm p t,
       immediateToParam Context_empty imm = Ret (Some p, Some t)
       /\ type (operand (IntType 8) (IntParam 44)) = Some t
       /\ param (operand (IntType 8) (IntParam 44)) = Some p.
Proof.
  apply (fold_returns_param
           (fold_constant (fun _ _ _ imm => Ret imm))
           (coerce_immediate (fun _ to => Ret to))
           (fun q => negb (hasTypePtr q))
           Context_empty PRIM_CAST
           (operand (IntType 64) (IntParam 300))
           (operand (IntType 8) (IntParam 0))).
  reflexivity.
Defined.

(** The fold of a binary operator on two operands that have their
    Immediates. *)
Lemma fold_binary fold_constant coerce_immediate isUnknown context op a b
    aImm bImm :
  op <> PRIM_CAST -> isParamOpFoldable op = true ->
  hasTypePtr a && hasParamPtr a = true ->
  hasTypePtr b && hasParamPtr b = true ->
  isUnknown b = false ->
  paramToImmediate (param a) (type a) = Ret aImm ->
  paramToImmediate (param b) (type b) = Ret bImm ->
  fold fold_constant coerce_immediate isUnknown context op a b =
  (result ← fold_constant context op aImm (Some bImm) Immediate_default;
   pair ← immediateToParam context result;
   Ret {| kind := PARAM; type := pair.2; param := pair.1 |}).
Proof.
  intros Hop Hfold Ha Hb Hu Ea Eb. unfold fold.
  rewrite Ha, Ea, Hb, Eb, Hu, Hfold. simpl.
  by rewrite bool_decide_eq_false_2.
Qed.

(** C3.  With the evaluator of the specification, the fold of a division or
    of a modulo whose second operand is a constant zero -- of whatever kind
    and width, and whatever the first operand -- ends in the evaluator's
    error, which reaches the caller of [Param::fold]: no [QualifiedType] is
    returned. *)
Theorem fold_division_by_zero other_fold coerce_immediate isUnknown context
    op a b aImm bImm :
  op = P_prim_div \/ op = P_prim_mod ->
  hasTypePtr a && hasParamPtr a = true ->
  hasTypePtr b && hasParamPtr b = true ->
  isUnknown b = false ->
  paramToImmediate (param a) (type a) = Ret aImm ->
  paramToImmediate (param b) (type b) = Ret bImm ->
  imm_is_zero bImm = true ->
  fold (fold_constant other_fold) coerce_immediate isUnknown context op a b
  = EvalError "division by zero".
Proof.
  intros Hop Ha Hb Hu Ea Eb Hz.
  rewrite (fold_binary _ _ _ _ _ _ _ aImm bImm); try done.
  - unfold fold_constant. simpl. rewrite Hz.
    by destruct Hop as [-> | ->].
  - by destruct Hop as [-> | ->].
  - by destruct Hop as [-> | ->].
Qed.

Lemma fold_division_by_zero_witness :
  fold (fold_constant (fun _ _ _ imm => Ret imm))
       (coerce_immediate (fun _ to => Ret to))
       (fun q => negb (hasTypePtr q))
       Context_empty P_prim_div
       (operand (IntType 32) (IntParam 7)) (operand (IntType 32) (IntParam 0))
  = EvalError "division by zero".
Proof.
  apply (fold_division_by_zero _ _ _ _ _ _ _
           {| const_kind := NUM_KIND_INT; string_kind := STRING_KIND_STRING;
              num_index := INT_SIZE_32; u := U_int32 7 |}
           {| const_kind := NUM_KIND_INT; string_kind := STRING_KIND_STRING;
              num_index := INT_SIZE_32; u := U_int32 0 |});
    solve [reflexivity | by left].
Defined.

(** C4.  With the evaluator of the specification,
    [fold(ADD, (int8, 100), (int8, 100))] returns an [int8] Param holding
    -56; at each width an addition of two signed (unsigned) operands returns
    the sum wrapped to the width in two's complement (modulo [2^width]),
    with the type of the operands. *)
Theorem fold_add_wraps other_fold coerce_immediate isUnknown context :
  (forall t p, isUnknown (operand t p) = false) ->
  fold (fold_constant other_fold) coerce_immediate isUnknown context P_prim_add
       (operand (IntType 8) (IntParam 100)) (operand (IntType 8) (IntParam 100))
  = Ret (operand (IntType 8) (IntParam (-56)))
  /\ (forall w x y, int_width w = true ->
        fold (fold_constant other_fold) coerce_immediate isUnknown context
             P_prim_add
             (operand (IntType w) (IntParam x)) (operand (IntType w) (IntParam y))
        = Ret (operand (IntType w) (IntParam (to_signed w (x + y)))))
  /\ (forall w x y, int_width w = true ->
        fold (fold_constant other_fold) coerce_immediate isUnknown context
             P_prim_add
             (operand (UintType w) (UintParam x)) (operand (UintType w) (UintParam y))
        = Ret (operand (UintType w) (UintParam (to_unsigned w (x + y))))).
Proof.
  intros Hu.
  assert (Hs : forall w x y, int_width w = true ->
        fold (fold_constant other_fold) coerce_immediate isUnknown context
             P_prim_add
             (operand (IntType w) (IntParam x)) (operand (IntType w) (IntParam y))
        = Ret (operand (IntType w) (IntParam (to_signed w (x + y))))).
  { intros w x y Hw. apply bool_decide_eq_true in Hw.
    unfold fold. rewrite Hu.
    destruct Hw as [-> | [-> | [-> | ->]]]; simpl;
      unfold IntParam_get, IntType_get, operand, v_int8, v_int16, v_int32,
        v_int64; simpl; by rewrite to_signed_add. }
  split; [|split; [exact Hs|]].
  - by rewrite Hs.
  - intros w x y Hw. apply bool_decide_eq_true in Hw.
    unfold fold. rewrite Hu.
    destruct Hw as [-> | [-> | [-> | ->]]]; simpl;
      unfold UintParam_get, UintType_get, operand, v_uint8, v_uint16, v_uint32,
        v_uint64; simpl; by rewrite to_unsigned_add.
Qed.

Lemma fold_add_wraps_witness :
  fold (fold_constant (fun _ _ _ imm => Ret imm))
       (coerce_immediate (fun _ to => Ret to))
       (fun q => negb (hasTypePtr q))
       Context_empty P_prim_add
       (operand (IntType 8) (IntParam 100)) (operand (IntType 8) (IntParam 100))
  = Ret (operand (IntType 8) (IntParam (-56))).
Proof.
  refine (proj1 (fold_add_wraps (fun _ _ _ imm => Ret imm)
                   (coerce_immediate (fun _ to => Ret to))
                   (fun q => negb (hasTypePtr q)) Context_empty _)).
  reflexivity.
Defined.

(** ** The round trip through an Immediate *)

Lemma int_width_cases (w : Z) :
  int_width w = true -> w = 8 \/ w = 16 \/ w = 32 \/ w = 64.
Proof. apply bool_decide_eq_true. Qed.

(** C5, as the specification has it, fails for [NoneParam]: it becomes the
    boolean Immediate false, which comes back as a [BoolParam] of type
    [bool]. *)
Lemma round_trip_NoneParam_counterexample :
  ~ round_trip_ok Context_empty NoneParam NothingType.
Proof. intros (p' & H & _). vm_compute in H. discriminate. Qed.

(** C5, amended.  A Param of boolean, integer, unsigned, real, complex or
    string kind, with a concrete type of its kind in which its value is
    representable, comes back from the Immediate as a Param that
    [completeMatch]es it, with the same type.  A [NoneParam] comes back as
    the [BoolParam] false with the type [bool], whatever its type, and an
    [EnumParam] fails the assertion of its case. *)
Theorem round_trip_representable context p t :
  representable p t = true ->
  round_trip_ok context p t
  /\ round_trip context NoneParam t = Ret (Some (BoolParam false), Some BoolType)
  /\ (forall v, round_trip context (EnumParam v) t = Abort "case not handled").
Proof.
  intros H. split; [|split; reflexivity]. unfold round_trip_ok, round_trip.
  destruct p as [v|v|v|v| |v|v|v], t as [|w|w|w|w|w| | | | |n];
    try discriminate H; simpl in H.
  - exists (BoolParam v). split; [by destruct v|].
    unfold completeMatch. simpl. by rewrite bool_decide_eq_true_2.
  - apply andb_prop in H as [H Him]. apply andb_prop in H as [Hw Hre].
    apply bool_decide_eq_true in Hw. unfold survives in *.
    destruct Hw as [-> | ->]; simpl in *;
      (eexists; split; [reflexivity|]);
      unfold completeMatch, v_complex64, v_complex128; simpl; by rewrite Hre, Him.
  - apply andb_prop in H as [H Hhi]. apply andb_prop in H as [Hw Hlo].
    apply Z.leb_le in Hlo. apply Z.ltb_lt in Hhi.
    exists (IntParam v). split.
    + destruct (int_width_cases _ Hw) as [-> | [-> | [-> | ->]]]; simpl;
        unfold IntParam_get, v_int8, v_int16, v_int32, v_int64; simpl;
        by rewrite to_signed_small.
    + unfold completeMatch. simpl. by rewrite bool_decide_eq_true_2.
  - apply andb_prop in H as [Hw Hv].
    apply bool_decide_eq_true in Hw. unfold survives in *.
    destruct Hw as [-> | ->]; simpl in *;
      (eexists; split; [reflexivity|]);
      unfold completeMatch, v_float32, v_float64; simpl; by rewrite Hv.
  - apply andb_prop in H as [Hw Hv].
    apply bool_decide_eq_true in Hw. unfold survives in *.
    destruct Hw as [-> | ->]; simpl in *;
      (eexists; split; [reflexivity|]);
      unfold completeMatch, v_float32, v_float64; simpl; by rewrite Hv.
  - exists (StringParam v). split; [reflexivity|].
    unfold completeMatch. simpl. by rewrite bool_decide_eq_true_2.
  - exists (StringParam v). split; [reflexivity|].
    unfold completeMatch. simpl. by rewrite bool_decide_eq_true_2.
  - exists (StringParam v). split; [reflexivity|].
    unfold completeMatch. simpl. by rewrite bool_decide_eq_true_2.
  - apply andb_prop in H as [H Hhi]. apply andb_prop in H as [Hw Hlo].
    apply Z.leb_le in Hlo. apply Z.ltb_lt in Hhi.
    exists (UintParam v). split.
    + destruct (int_width_cases _ Hw) as [-> | [-> | [-> | ->]]]; simpl;
        unfold UintParam_get, v_uint8, v_uint16, v_uint32, v_uint64; simpl;
        by rewrite to_unsigned_small.
    + unfold completeMatch. simpl. by rewrite bool_decide_eq_true_2.
Qed.

Lemma round_trip_representable_witness :
  round_trip_ok Context_empty
    (RealParam (S754_finite false 6755399441055744 (-52))) (RealType 32)
  /\ round_trip Context_empty NoneParam (RealType 32)
     = Ret (Some (BoolParam false), Some BoolType)
  /\ (forall v, round_trip Context_empty (EnumParam v) (RealType 32)
                = Abort "case not handled").
Proof.
  apply (round_trip_representable Context_empty
           (RealParam (S754_finite false 6755399441055744 (-52))) (RealType 32)).
  vm_compute. reflexivity.
Defined.

(** ** Interning *)

Lemma after_consistent (calls : list Param) (context : Context) :
  consistent context -> consistent (after calls context).
Proof.
  revert context. induction calls as [|c calls IH]; intros context H; [done|].
  simpl. apply IH. by apply getParam_consistent.
Qed.

Lemma getParam_constructs (context : Context) (value : Param) :
  results context !! value = None ->
  (getParam context value).1 = next context
  /\ objects (getParam context value).2
     = <[next context := value]> (objects context)
  /\ results (getParam context value).2
     = <[value := next context]> (results context).
Proof. unfold getParam, QUERY_BEGIN. by intros ->. Qed.

(** C9.  In any context, for a Param of any class and value, the getter
    returns the canonical instance of the value.  A first call, which finds
    nothing recorded, constructs an object that holds the value at an
    address no object of the context has, and records it.  The instance
    returned is an object of the context that holds the value, also after
    any further getter calls, and no other value is ever given it.  Every
    later call with that value, directly afterwards or after any further
    getter calls, returns the same instance and leaves the context as it
    was.  So it is for [IntParam::get], the getter of the integer class. *)
Theorem getParam_canonical_instance (context : Context) (value : Param)
    (calls : list Param) :
  let inst := (getParam context value).1 in
  let context1 := (getParam context value).2 in
  getParam context1 value = (inst, context1)
  /\ getParam (after calls context1) value = (inst, after calls context1)
  /\ (forall v : Z,
        getIntParam (after calls (getIntParam context v).2) v
        = ((getIntParam context v).1, after calls (getIntParam context v).2))
  /\ (results context !! value = None ->
      inst = next context
      /\ objects context1 = <[inst := value]> (objects context)
      /\ results context1 = <[value := inst]> (results context))
  /\ (consistent context ->
      objects context1 !! inst = Some value
      /\ objects (after calls context1) !! inst = Some value
      /\ (forall other : Param, other <> value ->
            (getParam (after calls context1) other).1 <> inst)
      /\ (results context !! value = None -> objects context !! inst = None)).
Proof.
  intros inst context1.
  pose proof (getParam_recorded context value) as H. fold inst context1 in H.
  split; [by apply getParam_hit|].
  split; [by apply getParam_hit, after_keeps|].
  split; [intros v; apply getParam_hit, after_keeps, getParam_recorded|].
  split.
  - intros Hnew. subst inst context1.
    destruct (getParam_constructs context value Hnew) as (-> & Ho & Hr).
    by rewrite Ho, Hr.
  - intros Hc.
    pose proof (getParam_consistent context value Hc) as Hc1.
    fold context1 in Hc1.
    pose proof (after_consistent calls context1 Hc1) as Hc2.
    pose proof (after_keeps calls context1 value inst H) as H2.
    split; [by apply Hc1|]. split; [by apply Hc2|]. split.
    + intros other Hne Heq.
      pose proof (getParam_object _ other Hc2) as Ho. rewrite Heq in Ho.
      pose proof (getParam_consistent _ other Hc2) as [Hobj _].
      pose proof (getParam_keeps _ value other inst H2) as Hv.
      apply Hobj in Hv. congruence.
    + intros Hnew. subst inst.
      destruct (getParam_constructs context value Hnew) as (-> & _).
      apply Hc. lia.
Qed.

Lemma getParam_canonical_instance_witness :
  getParam (after [IntParam 7; BoolParam true]
                  (getParam Context_empty (IntParam 5)).2) (IntParam 5)
  = ((getParam Context_empty (IntParam 5)).1,
     after [IntParam 7; BoolParam true]
           (getParam Context_empty (IntParam 5)).2)
  /\ objects (getParam Context_empty (IntParam 5)).2
       !! (getParam Context_empty (IntParam 5)).1 = Some (IntParam 5)
  /\ (getParam (after [IntParam 7; BoolParam true]
                      (getParam Context_empty (IntParam 5)).2) (IntParam 7)).1
     <> (getParam Context_empty (IntParam 5)).1.
Proof.
  destruct (getParam_canonical_instance Context_empty (IntParam 5)
              [IntParam 7; BoolParam true]) as (_ & Hlater & _ & _ & Hobj).
  destruct Hobj as (Hholds & _ & Hother & _).
  - split; simpl.
    + intros value inst H. by rewrite lookup_empty in H.
    + intros inst _. apply lookup_empty.
  - split; [exact Hlater|]. split; [exact Hholds|].
    apply Hother. discriminate.
Defined.

(** ** Literals *)

(** C6.  Sixteen hexadecimal digits F parse to [UINT64_MAX] without an
    error; seventeen return 0 with the overflow message. *)
Theorem hexStr2uint64_boundary :
  parse hexStr2uint64 "0xFFFFFFFFFFFFFFFF" = ok UINT64_MAX
  /\ parse hexStr2uint64 "0xFFFFFFFFFFFFFFFFF"
     = failed "Integer literal overflow: '0xFFFFFFFFFFFFFFFFF' is too big for a 64-bit unsigned integer".
Proof. split; vm_compute; reflexivity. Qed.

(** C1, on the code.  [octStr2uint64] takes the character 8 for an octal
    digit: [0o18] is parsed as 1 without an error, and [0o8] is refused by
    the conversion, not as an illegal character.  The character 9 is
    refused as the claim says. *)
Theorem octStr2uint64_accepts_8 :
  is_oct_char "8" = true
  /\ parse octStr2uint64 "0o18" = ok 1
  /\ parse octStr2uint64 "0o8" = failed "error converting octal literal"
  /\ parse octStr2uint64 "0o19" = failed "illegal character '9' in octal literal".
Proof. repeat split; vm_compute; reflexivity. Qed.

(** *** Sizes and buffers *)

Lemma as_uint64_small (z : Z) : 0 <= z < two64 -> as_uint64 z = z.
Proof. intros H. unfold as_uint64. by apply Z.mod_small. Qed.

Lemma size_sub_small (a b : Z) : 0 <= b <= a -> a < two64 -> size_sub a b = a - b.
Proof. intros H1 H2. unfold size_sub. apply as_uint64_small. lia. Qed.

Lemma from_app (pre rest : cstr) : from (pre ++ rest) (len pre) = rest.
Proof. unfold from, len. rewrite Nat2Z.id. apply drop_app_length. Qed.

Lemma from_0 (s : cstr) : from s 0 = s.
Proof. reflexivity. Qed.

Lemma at_head (s : cstr) (pre : cstr) :
  at_ (pre ++ s) (len pre) = default NUL (head s).
Proof.
  unfold at_, len. rewrite Nat2Z.id, lookup_app_r, Nat.sub_diag by lia.
  by destruct s.
Qed.

Lemma upto_nul_id (s : cstr) : NUL ∉ s -> upto_nul s = s.
Proof.
  induction s as [|c s IH]; [done|]. intros H.
  apply not_elem_of_cons in H as [Hc Hs]. simpl.
  destruct (Ascii.eqb_spec c NUL) as [->|_]; [done|]. by rewrite IH.
Qed.

Lemma no_zero_bytes (s : cstr) :
  NUL ∉ s -> stringContainsZeroBytes s (len s) = false.
Proof.
  intros H. unfold stringContainsZeroBytes, len.
  rewrite Nat2Z.id, firstn_all, Z.ltb_irrefl, orb_false_r.
  apply not_true_is_false. rewrite existsb_exists. intros (c & Hin & Hc).
  apply Ascii.eqb_eq in Hc as ->. by apply list_elem_of_In in Hin.
Qed.

Lemma NUL_not_in_repeat (c : ascii) (n : nat) : c <> NUL -> NUL ∉ repeat c n.
Proof.
  intros Hc Hin. apply list_elem_of_In, repeat_spec in Hin. congruence.
Qed.

(** *** The loops *)

Lemma skip_leading_spec (c : ascii) (n : nat) (rest : cstr) (l p : Z) :
  rest <> [] -> (head rest <> Some c \/ length rest = 1%nat) ->
  0 <= p -> p + Z.of_nat n + len rest = l -> l < two64 ->
  skip_leading c (repeat c n ++ rest) l p = p + Z.of_nat n.
Proof.
  unfold len. revert p. induction n as [|n IH]; intros p Hne Hrest Hp Hl Hmax.
  - destruct rest as [|x rest]; [done|]. simpl in *.
    rewrite size_sub_small by lia.
    destruct (Ascii.eqb_spec x c) as [->|_]; simpl; [|lia].
    destruct Hrest as [?|Hone]; [done|].
    rewrite (proj2 (Z.ltb_ge _ _)) by lia. lia.
  - simpl. rewrite Ascii.eqb_refl, size_sub_small by lia.
    assert (0 < length rest)%nat by (destruct rest; [done|simpl; lia]).
    rewrite (proj2 (Z.ltb_lt _ _)) by lia. simpl.
    rewrite as_uint64_small by lia. rewrite IH; [lia|done|done|lia..].
Qed.

Lemma skip_minus_spec (n : nat) (rest : cstr) (l p : Z) (negate : bool) :
  rest <> [] -> head rest <> Some "-"%char ->
  0 <= p -> p + Z.of_nat n + len rest = l -> l < two64 ->
  skip_minus (repeat "-"%char n ++ rest) l p negate
  = (p + Z.of_nat n, if Nat.odd n then negb negate else negate).
Proof.
  unfold len. revert p negate.
  induction n as [|n IH]; intros p negate Hne Hrest Hp Hl Hmax.
  - destruct rest as [|x rest]; [done|]. simpl in *.
    destruct (Ascii.eqb_spec x "-") as [->|_]; [done|]. simpl.
    f_equal. lia.
  - cbn [repeat app skip_minus]. rewrite size_sub_small by lia.
    assert (0 < length rest)%nat by (destruct rest; [done|simpl; lia]).
    rewrite Ascii.eqb_refl, (proj2 (Z.ltb_lt _ _)) by lia. cbn [andb].
    rewrite as_uint64_small by lia. rewrite IH; [|done|done|lia..].
    f_equal; [lia|]. rewrite Nat.odd_succ, <- Nat.negb_odd.
    by destruct (Nat.odd n), negate.
Qed.

Lemma first_illegal_none (legal : ascii -> bool) (rest : cstr) (l i : Z) :
  Forall (fun c => legal c = true) rest ->
  0 <= i -> i + len rest = l -> l < two64 ->
  first_illegal legal rest l i = None.
Proof.
  unfold len. revert i. induction rest as [|x rest IH]; intros i Hall Hi Hl Hmax.
  - simpl in *. by rewrite (proj2 (Z.ltb_ge _ _)) by lia.
  - apply Forall_cons in Hall as [Hx Hall]. simpl in *.
    rewrite (proj2 (Z.ltb_lt _ _)), Hx, as_uint64_small by lia.
    apply IH; [done|lia..].
Qed.

(** *** Literals with a radix prefix *)

Lemma literal_facts (x : ascii) (z : nat) (body : cstr) :
  x <> NUL -> NUL ∉ body -> body <> [] -> head body <> Some "0"%char ->
  len (literal x z body) < two64 ->
  stringContainsZeroBytes (literal x z body) (len (literal x z body)) = false
  /\ skip_leading "0" (from (literal x z body) 2) (len (literal x z body)) 2
     = 2 + Z.of_nat z
  /\ size_sub (len (literal x z body)) (2 + Z.of_nat z) = len body
  /\ at_ (literal x z body) (2 + Z.of_nat z) = default NUL (head body)
  /\ from (literal x z body) (2 + Z.of_nat z) = body
  /\ 3 <= len (literal x z body).
Proof.
  intros Hx Hnul Hne Hhead Hmax.
  assert (Hlen : len (literal x z body) = 2 + Z.of_nat z + len body).
  { unfold len, literal. simpl. rewrite length_app, repeat_length. lia. }
  assert (0 < len body).
  { unfold len. destruct body; [done|simpl; lia]. }
  assert (Hsplit : literal x z body
                   = ("0"%char :: x :: repeat "0"%char z) ++ body) by done.
  assert (Hpre : len ("0"%char :: x :: repeat "0"%char z) = 2 + Z.of_nat z).
  { unfold len. simpl. rewrite repeat_length. lia. }
  repeat split.
  - apply no_zero_bytes. unfold literal.
    rewrite !not_elem_of_cons, not_elem_of_app. repeat split; try done.
    by apply NUL_not_in_repeat.
  - change (from (literal x z body) 2) with (repeat "0"%char z ++ body).
    apply skip_leading_spec; auto; lia.
  - rewrite size_sub_small; lia.
  - rewrite Hsplit, <- Hpre. apply at_head.
  - rewrite Hsplit, <- Hpre. apply from_app.
  - lia.
Qed.

(** C2, as the specification has it, fails: seventeen characters G after
    [0x] hold a character outside the hexadecimal digits and are too many for
    64 bits, and the parser reports the overflow, not the character. *)
Lemma validation_order_counterexample :
  radix_digit 16 "G" = false
  /\ "G"%char ∈ C "GGGGGGGGGGGGGGGGG"
  /\ (16 < length (C "GGGGGGGGGGGGGGGGG"))%nat
  /\ parse hexStr2uint64 "0xGGGGGGGGGGGGGGGGG"
     = failed (overflow_msg (C "0xGGGGGGGGGGGGGGGGG"))
  /\ forall c, parse hexStr2uint64 "0xGGGGGGGGGGGGGGGGG"
               <> failed (illegal_msg c "hexadecimal").
Proof.
  split; [reflexivity|]. split; [by left|]. split; [simpl; lia|].
  split; [vm_compute; reflexivity|].
  intros c H. vm_compute in H. discriminate.
Qed.

(** C2, amended.  A binary, octal or hexadecimal literal whose text after
    the prefix and the redundant zeros is longer than the limit of its radix
    -- more than 64, 22 or 16 characters, or exactly 22 in octal that do not
    start with 1 -- is reported as an overflow, whatever characters the text
    holds: the length is checked before the characters are. *)
Theorem length_check_precedes_validation (z : nat) (body : cstr) :
  NUL ∉ body -> head body <> Some "0"%char ->
  2 + Z.of_nat z + len body < two64 ->
  (forall x, x = "b"%char \/ x = "B"%char -> 64 < len body ->
     binStr2uint64 (Some (literal x z body)) (len (literal x z body))
     = failed (overflow_msg (literal x z body)))
  /\ (forall x, x = "o"%char \/ x = "O"%char ->
      22 < len body \/ (len body = 22 /\ head body <> Some "1"%char) ->
      octStr2uint64 (Some (literal x z body)) (len (literal x z body))
      = failed (overflow_msg (literal x z body)))
  /\ (forall x, x = "x"%char \/ x = "X"%char -> 16 < len body ->
      hexStr2uint64 (Some (literal x z body)) (len (literal x z body))
      = failed (overflow_msg (literal x z body))).
Proof.
  intros Hnul Hhead Hmax.
  assert (Hlen : forall x, len (literal x z body) = 2 + Z.of_nat z + len body).
  { intros x. unfold len, literal. simpl. rewrite length_app, repeat_length. lia. }
  assert (Hfacts : forall x, x <> NUL -> 0 < len body ->
            stringContainsZeroBytes (literal x z body) (len (literal x z body)) = false
            /\ skip_leading "0" (from (literal x z body) 2) (len (literal x z body)) 2
               = 2 + Z.of_nat z
            /\ size_sub (len (literal x z body)) (2 + Z.of_nat z) = len body
            /\ at_ (literal x z body) (2 + Z.of_nat z) = default NUL (head body)
            /\ from (literal x z body) (2 + Z.of_nat z) = body
            /\ 3 <= len (literal x z body)).
  { intros x Hx Hpos. apply literal_facts; try done.
    - intros ->. unfold len in Hpos. simpl in Hpos. lia.
    - rewrite Hlen. lia. }
  split; [|split].
  - intros x Hx Hlong.
    destruct (Hfacts x) as (Hz & Hskip & Hsize & _ & _ & H3); [by destruct Hx as [-> | ->]|lia|].
    unfold binStr2uint64.
    replace (has_prefix (literal x z body) "b" "B") with true
      by (by destruct Hx as [-> | ->]).
    rewrite Hz, Hskip, Hsize. simpl.
    rewrite (proj2 (Z.leb_le _ _)) by lia. simpl.
    by rewrite (proj2 (Z.ltb_lt _ _)) by lia.
  - intros x Hx Hlong.
    destruct (Hfacts x) as (Hz & Hskip & Hsize & Hat & _ & H3); [by destruct Hx as [-> | ->]|lia|].
    unfold octStr2uint64.
    replace (has_prefix (literal x z body) "o" "O") with true
      by (by destruct Hx as [-> | ->]).
    rewrite Hz, Hskip, Hsize, Hat. simpl.
    destruct Hlong as [Hlong | [Hlong H1]].
    + by rewrite (proj2 (Z.ltb_lt _ _)) by lia.
    + rewrite Hlong. simpl.
      destruct body as [|c body']; [done|]. simpl in *.
      destruct (Ascii.eqb_spec c "1") as [->|_]; [done|]. done.
  - intros x Hx Hlong.
    destruct (Hfacts x) as (Hz & Hskip & Hsize & _ & _ & H3); [by destruct Hx as [-> | ->]|lia|].
    unfold hexStr2uint64.
    replace (has_prefix (literal x z body) "x" "X") with true
      by (by destruct Hx as [-> | ->]).
    rewrite Hz, Hskip, Hsize. simpl.
    rewrite (proj2 (Z.leb_le _ _)) by lia. simpl.
    by rewrite (proj2 (Z.ltb_lt _ _)) by lia.
Qed.

Lemma length_check_precedes_validation_witness :
  hexStr2uint64 (Some (literal "x" 3 (C "1G345678901234567")))
                (len (literal "x" 3 (C "1G345678901234567")))
  = failed (overflow_msg (literal "x" 3 (C "1G345678901234567"))).
Proof.
  refine (proj2 (proj2 (length_check_precedes_validation 3
                          (C "1G345678901234567") _ _ _)) "x"%char _ _).
  - vm_compute. intros H. repeat (apply elem_of_cons in H as [H|H]; [discriminate H|]).
    by apply elem_of_nil in H.
  - discriminate.
  - vm_compute. reflexivity.
  - by left.
  - vm_compute. reflexivity.
Defined.

(** *** Decimal digits *)

Lemma code_inj (c d : ascii) : code c = code d -> c = d.
Proof.
  unfold code. intros H. apply N2Z.inj in H.
  rewrite <- (ascii_N_embedding c), <- (ascii_N_embedding d). by f_equal.
Qed.

Lemma is_digit_dec_char (c : ascii) : is_digit c -> is_dec_char c = true.
Proof.
  unfold is_digit, is_dec_char, between. change (code "0") with 48.
  change (code "9") with 57. intros H.
  apply andb_true_intro. split; apply Z.leb_le; lia.
Qed.

Lemma is_digit_not (c d : ascii) :
  is_digit c -> (code d <? 48) || (57 <? code d) = true -> Ascii.eqb c d = false.
Proof.
  unfold is_digit. intros Hc Hd. destruct (Ascii.eqb_spec c d) as [->|]; [|done].
  apply orb_prop in Hd as [Hd|Hd]; apply Z.ltb_lt in Hd; lia.
Qed.

Lemma is_digit_not_in (d : ascii) (ds : cstr) :
  Forall is_digit ds -> (code d <? 48) || (57 <? code d) = true -> d ∉ ds.
Proof.
  intros Hall Hd Hin. rewrite Forall_forall in Hall. apply Hall in Hin.
  pose proof (is_digit_not d d Hin Hd) as H. by rewrite Ascii.eqb_refl in H.
Qed.

Lemma is_digit_digit_of (c : ascii) :
  is_digit c -> digit_of 10 c = Some (code c - 48).
Proof.
  intros H. unfold digit_of. rewrite (is_digit_dec_char c H : between "0" "9" c = true).
  unfold is_digit in H. by rewrite (proj2 (Z.ltb_lt _ _)) by lia.
Qed.

Lemma is_digit_not_space (c : ascii) : is_digit c -> isspace c = false.
Proof.
  unfold is_digit, isspace. intros H.
  rewrite (proj2 (Z.eqb_neq _ _)), (proj2 (Z.leb_gt (code c) 13)) by lia.
  by rewrite andb_false_r.
Qed.

Lemma digit_char_code (c : ascii) : is_digit c -> digit_char (code c - 48) = c.
Proof.
  intros _. unfold digit_char, code.
  replace (48 + (Z.of_N (N_of_ascii c) - 48)) with (Z.of_N (N_of_ascii c)) by lia.
  by rewrite N2Z.id, ascii_N_embedding.
Qed.

Lemma decimal_value_snoc (ds : cstr) (c : ascii) :
  decimal_value (ds ++ [c]) = decimal_value ds * 10 + (code c - 48).
Proof. unfold decimal_value. by rewrite foldl_snoc. Qed.

Lemma scan_digits_decimal (ds : cstr) (acc : Z) :
  Forall is_digit ds -> scan_digits 10 ds acc = foldl dec_step acc ds.
Proof.
  revert acc. induction ds as [|c ds IH]; intros acc Hall; [done|].
  apply Forall_cons in Hall as [Hc Hall]. simpl.
  rewrite is_digit_digit_of by done. by apply IH.
Qed.

Lemma foldl_dec_lower (ds : cstr) (acc : Z) :
  Forall is_digit ds -> 0 <= acc ->
  acc * 10 ^ len ds <= foldl dec_step acc ds.
Proof.
  unfold len. revert acc. induction ds as [|c ds IH]; intros acc Hall Hacc.
  - simpl. lia.
  - apply Forall_cons in Hall as [Hc Hall]. unfold is_digit in Hc.
    cbn [foldl length]. rewrite Nat2Z.inj_succ, Z.pow_succ_r by lia.
    etrans; [|apply IH; [done|unfold dec_step; lia]].
    unfold dec_step.
    assert (0 <= 10 ^ Z.of_nat (length ds)) by (apply Z.pow_nonneg; lia).
    nia.
Qed.

Lemma decimal_value_nonneg (ds : cstr) : Forall is_digit ds -> 0 <= decimal_value ds.
Proof.
  intros H. pose proof (foldl_dec_lower ds 0 H). unfold decimal_value, dec_step in *.
  lia.
Qed.

Lemma decimal_value_app_ge (a b : cstr) :
  Forall is_digit a -> Forall is_digit b ->
  decimal_value a <= decimal_value (a ++ b).
Proof.
  intros Ha Hb. pose proof (decimal_value_nonneg a Ha) as Hn.
  unfold decimal_value in *. rewrite foldl_app.
  pose proof (foldl_dec_lower b _ Hb Hn) as H. unfold dec_step in *.
  assert (1 <= 10 ^ len b).
  { unfold len. change 1 with (10 ^ 0). apply Z.pow_le_mono_r; lia. }
  etrans; [|exact H]. nia.
Qed.

Lemma decimal_value_lower (c : ascii) (ds : cstr) :
  Forall is_digit (c :: ds) -> c <> "0"%char ->
  10 ^ len ds <= decimal_value (c :: ds).
Proof.
  intros Hall Hc. apply Forall_cons in Hall as [Hd Hall].
  assert (1 <= code c - 48).
  { unfold is_digit in Hd. destruct (Z.eq_dec (code c) 48) as [E|]; [|lia].
    exfalso. apply Hc. by apply code_inj. }
  unfold decimal_value. cbn [foldl].
  assert (Hstep : dec_step 0 c = code c - 48) by (unfold dec_step; lia).
  etrans; [|apply foldl_dec_lower; [done|lia]]. rewrite Hstep.
  assert (0 <= 10 ^ len ds) by (apply Z.pow_nonneg; unfold len; lia). nia.
Qed.

(** A canonical number below [10^20] has at most twenty digits. *)
Lemma canonical_length (ds : cstr) :
  canonical ds -> decimal_value ds < 10 ^ 20 -> (length ds <= 20)%nat.
Proof.
  intros (Hne & Hall & Hhead) Hv.
  destruct ds as [|c ds]; [done|]. destruct Hhead as [Hhead|Hone]; [|lia].
  assert (Hc : c <> "0"%char) by (intros ->; by apply Hhead).
  pose proof (decimal_value_lower c ds Hall Hc) as Hlow.
  destruct (Nat.le_gt_cases (length (c :: ds)) 20) as [|Hlong]; [done|].
  exfalso. simpl in Hlong.
  assert (10 ^ 20 <= 10 ^ len ds); [|lia].
  apply Z.pow_le_mono_r; unfold len; lia.
Qed.

(** Formatting the value of a canonical number gives the number back. *)
Lemma utoa_decimal (ds : cstr) :
  canonical ds ->
  forall fuel acc, (length ds <= fuel)%nat ->
  utoa fuel (decimal_value ds) acc = ds ++ acc.
Proof.
  induction ds as [|c ds IH] using rev_ind; intros (Hne & Hall & Hhead); [done|].
  intros fuel acc Hfuel. rewrite length_app in Hfuel. simpl in Hfuel.
  destruct fuel as [|fuel]; [lia|].
  apply Forall_app in Hall as [Hall Hc]. apply Forall_inv in Hc.
  rewrite decimal_value_snoc. cbn [utoa].
  pose proof (decimal_value_nonneg ds Hall) as Hn.
  assert (Hd : 0 <= code c - 48 < 10) by (unfold is_digit in Hc; lia).
  replace ((decimal_value ds * 10 + (code c - 48)) mod 10) with (code c - 48)
    by (rewrite Z.add_comm, Z_mod_plus_full, Z.mod_small; lia).
  replace ((decimal_value ds * 10 + (code c - 48)) / 10) with (decimal_value ds)
    by (rewrite Z.add_comm, Z_div_plus_full, Z.div_small; lia).
  rewrite digit_char_code by done.
  destruct ds as [|d ds]; [done|].
  assert (Hd0 : d <> "0"%char).
  { destruct Hhead as [Hhead|Hone]; [intros ->; by apply Hhead|].
    rewrite length_app in Hone. simpl in Hone. lia. }
  pose proof (decimal_value_lower d ds Hall Hd0) as Hlow.
  assert (0 < 10 ^ len ds) by (apply Z.pow_pos_nonneg; unfold len; lia).
  rewrite (proj2 (Z.eqb_neq _ _)) by lia.
  rewrite IH; [by rewrite <- app_assoc| |lia].
  split; [done|]. split; [done|]. left. simpl. congruence.
Qed.

Lemma decimal_value_take_le (n : nat) (ds : cstr) :
  Forall is_digit ds -> decimal_value (take n ds) <= decimal_value ds.
Proof.
  intros H. rewrite <- (take_drop n ds) at 2.
  apply decimal_value_app_ge; [by apply Forall_take|by apply Forall_drop].
Qed.

Lemma digits_no_NUL (ds : cstr) : Forall is_digit ds -> NUL ∉ ds.
Proof. intros H. by apply is_digit_not_in. Qed.

Lemma scan_0x_decimal (s : cstr) : scan_0x 10 s = s.
Proof. by destruct s as [|a [|b [|c s]]]. Qed.

Lemma scan_prefix_digits (ds : cstr) :
  ds <> [] -> Forall is_digit ds ->
  scan_sign (skip_space (upto_nul ds)) = (false, ds)
  /\ has_digit 10 ds = true
  /\ scan_digits 10 ds 0 = decimal_value ds.
Proof.
  intros Hne Hall. rewrite upto_nul_id by by apply digits_no_NUL.
  split; [|split].
  - destruct ds as [|c ds]; [done|]. apply Forall_cons in Hall as [Hc _].
    cbn [skip_space]. rewrite is_digit_not_space by done.
    unfold scan_sign. by rewrite !(is_digit_not c) by done.
  - destruct ds as [|c ds]; [done|]. apply Forall_cons in Hall as [Hc _].
    unfold has_digit. by rewrite is_digit_digit_of by done.
  - by apply scan_digits_decimal.
Qed.

Lemma sscanf_d64_digits (ds : cstr) :
  ds <> [] -> Forall is_digit ds ->
  sscanf_d64 ds
  = Some (if INT64_MAX <? decimal_value ds then INT64_MAX else decimal_value ds).
Proof.
  intros Hne Hall. destruct (scan_prefix_digits ds Hne Hall) as (Hs & Hd & Hv).
  unfold sscanf_d64. by rewrite Hs, Hd, Hv.
Qed.

Lemma sscanf_u64_digits (ds : cstr) :
  ds <> [] -> Forall is_digit ds ->
  sscanf_u64 10 ds
  = Some (if UINT64_MAX <? decimal_value ds then UINT64_MAX else decimal_value ds).
Proof.
  intros Hne Hall. destruct (scan_prefix_digits ds Hne Hall) as (Hs & Hd & Hv).
  unfold sscanf_u64. by rewrite Hs, scan_0x_decimal, Hd, Hv.
Qed.

(** *** The round-trip check *)

Lemma format_u64_decimal (ds : cstr) :
  canonical ds -> decimal_value ds < two64 -> format_u64 (decimal_value ds) = ds.
Proof.
  intros Hc Hv. pose proof Hc as (_ & Hall & _).
  pose proof (decimal_value_nonneg ds Hall).
  unfold format_u64. rewrite as_uint64_small by lia.
  rewrite utoa_decimal; [apply app_nil_r|done|].
  apply canonical_length; [done|]. unfold two64 in Hv. lia.
Qed.

(** The check of the parsers on the digits [ds], the scanner saturating at
    [bound]: it passes exactly when the value is within the bound. *)
Lemma round_trip_check (bound : Z) (ds : cstr) (n : nat) :
  canonical ds -> 0 <= bound < two64 ->
  Forall is_digit (format_u64 bound) -> decimal_value (format_u64 bound) = bound ->
  (length ds <= n)%nat ->
  let v := decimal_value ds in
  let scanned := if bound <? v then bound else v in
  strcmp_ne ds (take n (format_u64 scanned)) = negb (round_trips scanned ds)
  /\ (round_trips scanned ds = true <-> v <= bound).
Proof.
  intros Hc Hb Hfmt Hval Hn v scanned. pose proof Hc as (_ & Hall & _).
  subst v scanned. unfold strcmp_ne, round_trips.
  rewrite (upto_nul_id ds) by by apply digits_no_NUL.
  destruct (Z.ltb_spec bound (decimal_value ds)) as [Hlt|Hle].
  - assert (Hne : take n (format_u64 bound) <> ds).
    { intros E. pose proof (decimal_value_take_le n _ Hfmt) as Hle.
      rewrite E, Hval in Hle. lia. }
    assert (Hne' : format_u64 bound <> ds).
    { intros E. rewrite E in Hval. lia. }
    rewrite upto_nul_id by by apply digits_no_NUL, Forall_take.
    rewrite !bool_decide_eq_false_2 by done. split; [done|].
    split; [done|lia].
  - rewrite format_u64_decimal by (done || lia).
    rewrite take_ge by done.
    rewrite upto_nul_id by by apply digits_no_NUL.
    rewrite !bool_decide_eq_true_2 by done. by split.
Qed.

Lemma as_int64_small (z : Z) : INT64_MIN <= z <= INT64_MAX -> as_int64 z = z.
Proof.
  intros H. change (as_int64 z) with (to_signed 64 z).
  apply to_signed_small; [lia|]. unfold INT64_MIN, INT64_MAX in H. lia.
Qed.

Lemma as_uint64_as_int64 (z : Z) : 0 <= z < two64 -> as_uint64 (as_int64 z) = z.
Proof.
  intros H. change (as_uint64 (as_int64 z)) with (to_signed 64 z mod 2 ^ 64).
  rewrite to_signed_mod by lia. by apply Z.mod_small.
Qed.

Lemma format_u64_as_int64 (z : Z) :
  0 <= z < two64 -> format_u64 (as_int64 z) = format_u64 z.
Proof.
  intros H. unfold format_u64. by rewrite as_uint64_as_int64, as_uint64_small.
Qed.

Lemma first_byte_not_NUL (s : cstr) :
  s <> [] -> NUL ∉ s -> Ascii.eqb (at_ s 0) NUL = false.
Proof.
  intros Hne Hnul. destruct s as [|c s]; [done|].
  apply not_elem_of_cons in Hnul as [Hc _].
  change (at_ (c :: s) 0) with c. by destruct (Ascii.eqb_spec c NUL).
Qed.

(** *** The decimal parsers *)

Lemma from_repeat_app (c : ascii) (n : nat) (rest : cstr) :
  from (repeat c n ++ rest) (Z.of_nat n) = rest.
Proof.
  pose proof (from_app (repeat c n) rest) as H. unfold len in H.
  by rewrite repeat_length in H.
Qed.

Lemma bounds_in_range :
  0 <= INT64_MAX < two64 /\ 0 <= UINT64_MAX < two64.
Proof. vm_compute. repeat split; discriminate. Qed.

Lemma format_bounds :
  Forall is_digit (format_u64 INT64_MAX)
  /\ decimal_value (format_u64 INT64_MAX) = INT64_MAX
  /\ Forall is_digit (format_u64 UINT64_MAX)
  /\ decimal_value (format_u64 UINT64_MAX) = UINT64_MAX.
Proof.
  assert (H : forall l : cstr,
             forallb (fun c => (48 <=? code c) && (code c <=? 57)) l = true ->
             Forall is_digit l).
  { intros l Hl. apply Forall_forall. intros c Hc.
    rewrite forallb_forall in Hl. apply list_elem_of_In, Hl in Hc.
    apply andb_prop in Hc as [H1 H2]. split; by apply Z.leb_le. }
  repeat split; try apply H; vm_compute; reflexivity.
Qed.

Lemma decStr2int64_spec (k z : nat) (ds : cstr) :
  canonical ds ->
  len (repeat "-"%char k ++ repeat "0"%char z ++ ds) < two64 ->
  decStr2int64 (Some (repeat "-"%char k ++ repeat "0"%char z ++ ds))
               (len (repeat "-"%char k ++ repeat "0"%char z ++ ds))
  = (if round_trips (if INT64_MAX <? decimal_value ds then INT64_MAX
                     else decimal_value ds) ds
     then ok (if Nat.odd k then - decimal_value ds else decimal_value ds)
     else failed (overflow_msg (repeat "-"%char k ++ repeat "0"%char z ++ ds))).
Proof.
  intros Hc Hmax. pose proof Hc as (Hne & Hall & Hhead).
  assert (Hlen : len (repeat "-"%char k ++ repeat "0"%char z ++ ds)
                 = Z.of_nat k + Z.of_nat z + len ds).
  { unfold len. rewrite !length_app, !repeat_length. lia. }
  assert (Hpos : 0 < len ds) by (unfold len; destruct ds; [done|simpl; lia]).
  assert (Hnul : NUL ∉ repeat "-"%char k ++ repeat "0"%char z ++ ds).
  { rewrite !not_elem_of_app. repeat split;
      [by apply NUL_not_in_repeat..|by apply digits_no_NUL]. }
  assert (Hrest : repeat "0"%char z ++ ds <> []) by (by destruct z, ds).
  assert (Hlen' : len (repeat "0"%char z ++ ds) = Z.of_nat z + len ds).
  { unfold len. rewrite !length_app, !repeat_length. lia. }
  assert (Hfirst : head (repeat "0"%char z ++ ds) <> Some "-"%char).
  { destruct z; [|done]. destruct ds as [|c ds]; [done|].
    apply Forall_cons in Hall as [Hd _]. simpl. intros [= ->].
    unfold is_digit in Hd. change (code "-") with 45 in Hd. lia. }
  set (l := len (repeat "-"%char k ++ repeat "0"%char z ++ ds)) in *.
  unfold decStr2int64.
  rewrite first_byte_not_NUL, no_zero_bytes by (done || by destruct k, z, ds).
  unfold CHPL_ASSERT. rewrite (proj2 (Z.leb_le 1 l)) by lia.
  cbn [orb mbind outcome_bind]. rewrite from_0.
  rewrite (skip_minus_spec k _ l 0 false); [|done|done|lia|lia|exact Hmax].
  rewrite Z.add_0_l, from_repeat_app.
  rewrite (skip_leading_spec "0" z ds l (Z.of_nat k));
    [|done|done|lia|lia|exact Hmax].
  replace (Z.of_nat k + Z.of_nat z) with (len (repeat "-"%char k ++ repeat "0"%char z))
    by (unfold len; rewrite length_app, !repeat_length; lia).
  rewrite app_assoc, from_app, <- app_assoc.
  rewrite first_illegal_none;
    [|apply (Forall_impl _ _ _ Hall), is_digit_dec_char
     |unfold len; lia
     |unfold len in *; rewrite length_app, !repeat_length; lia
     |lia].
  rewrite sscanf_d64_digits by done.
  unfold snprintf_u64. replace (l + 1 - 1) with l by lia.
  destruct format_bounds as (Hf1 & Hf2 & _).
  destruct (round_trip_check INT64_MAX ds (Z.to_nat l) Hc) as [-> Hiff];
    [apply bounds_in_range|exact Hf1|exact Hf2|unfold len in *; lia|].
  destruct (round_trips _ ds); simpl; [|done].
  assert (Hin : decimal_value ds <= INT64_MAX) by by apply Hiff.
  pose proof (decimal_value_nonneg ds Hall).
  rewrite (proj2 (Z.ltb_ge _ _)) by lia.
  destruct (Nat.odd k); [|done].
  rewrite as_int64_small; [done|]. unfold INT64_MIN, INT64_MAX in *. lia.
Qed.

Lemma decStr2uint64_spec (z : nat) (ds : cstr) :
  canonical ds ->
  len (repeat "0"%char z ++ ds) < two64 ->
  decStr2uint64 (Some (repeat "0"%char z ++ ds)) (len (repeat "0"%char z ++ ds))
  = (if round_trips (if UINT64_MAX <? decimal_value ds then UINT64_MAX
                     else decimal_value ds) ds
     then ok (decimal_value ds)
     else failed (overflow_msg (repeat "0"%char z ++ ds))).
Proof.
  intros Hc Hmax. pose proof Hc as (Hne & Hall & Hhead).
  assert (Hlen : len (repeat "0"%char z ++ ds) = Z.of_nat z + len ds).
  { unfold len. rewrite !length_app, !repeat_length. lia. }
  assert (Hpos : 0 < len ds) by (unfold len; destruct ds; [done|simpl; lia]).
  assert (Hnul : NUL ∉ repeat "0"%char z ++ ds).
  { rewrite !not_elem_of_app. split;
      [by apply NUL_not_in_repeat|by apply digits_no_NUL]. }
  set (l := len (repeat "0"%char z ++ ds)) in *.
  unfold decStr2uint64.
  rewrite first_byte_not_NUL, no_zero_bytes by (done || by destruct z, ds).
  unfold CHPL_ASSERT. rewrite (proj2 (Z.leb_le 1 l)) by lia.
  cbn [orb mbind outcome_bind]. rewrite from_0.
  rewrite (skip_leading_spec "0" z ds l 0); [|done|done|lia|lia|exact Hmax].
  rewrite Z.add_0_l, from_repeat_app.
  rewrite first_illegal_none;
    [|apply (Forall_impl _ _ _ Hall), is_digit_dec_char
     |lia|unfold len in *; lia|lia].
  rewrite sscanf_u64_digits by done.
  pose proof (decimal_value_nonneg ds Hall).
  assert (Hscan : 0 <= (if UINT64_MAX <? decimal_value ds then UINT64_MAX
                        else decimal_value ds) < two64).
  { unfold UINT64_MAX. destruct (Z.ltb_spec (two64 - 1) (decimal_value ds));
      unfold two64 in *; lia. }
  unfold snprintf_u64. replace (l + 1 - 1) with l by lia.
  rewrite format_u64_as_int64, as_uint64_as_int64 by done.
  destruct format_bounds as (_ & _ & Hf1 & Hf2).
  destruct (round_trip_check UINT64_MAX ds (Z.to_nat l) Hc) as [-> Hiff];
    [apply bounds_in_range|exact Hf1|exact Hf2|unfold len in *; lia|].
  destruct (round_trips _ ds); simpl; [|done].
  assert (Hin : decimal_value ds <= UINT64_MAX) by by apply Hiff.
  by rewrite (proj2 (Z.ltb_ge _ _)) by lia.
Qed.

(** C8.  On any number of minus signs, any number of redundant zeros and a
    canonical number after them, [decStr2int64] strips every sign and every
    zero, re-renders the scanned value and compares it with the digits, and
    returns the value, negated exactly when the number of signs is odd, or 0
    with the overflow message when the comparison fails -- which it does
    exactly above [INT64_MAX].  [decStr2uint64] applies the same check, with
    the same message, to what its scanner reads, and fails exactly above
    [UINT64_MAX].  [--5] is 5 and [-5] is -5. *)
Theorem decStr2int64_toggling_sign (k z : nat) (ds : cstr) :
  canonical ds ->
  len (repeat "-"%char k ++ repeat "0"%char z ++ ds) < two64 ->
  let v := decimal_value ds in
  let signed_scan := if INT64_MAX <? v then INT64_MAX else v in
  let unsigned_scan := if UINT64_MAX <? v then UINT64_MAX else v in
  decStr2int64 (Some (repeat "-"%char k ++ repeat "0"%char z ++ ds))
               (len (repeat "-"%char k ++ repeat "0"%char z ++ ds))
  = (if round_trips signed_scan ds
     then ok (if Nat.odd k then - v else v)
     else failed (overflow_msg (repeat "-"%char k ++ repeat "0"%char z ++ ds)))
  /\ (round_trips signed_scan ds = true <-> v <= INT64_MAX)
  /\ decStr2uint64 (Some (repeat "0"%char z ++ ds)) (len (repeat "0"%char z ++ ds))
     = (if round_trips unsigned_scan ds
        then ok v
        else failed (overflow_msg (repeat "0"%char z ++ ds)))
  /\ (round_trips unsigned_scan ds = true <-> v <= UINT64_MAX)
  /\ parse decStr2int64 "--5" = ok 5
  /\ parse decStr2int64 "-5" = ok (-5).
Proof.
  intros Hc Hmax v signed_scan unsigned_scan. subst v signed_scan unsigned_scan.
  destruct format_bounds as (Hs1 & Hs2 & Hu1 & Hu2).
  split; [by apply decStr2int64_spec|].
  split.
  { by apply (round_trip_check INT64_MAX ds (length ds) Hc);
      [apply bounds_in_range|..]. }
  split.
  { apply decStr2uint64_spec; [done|].
    unfold len in *. rewrite !length_app in *. lia. }
  split.
  { by apply (round_trip_check UINT64_MAX ds (length ds) Hc);
      [apply bounds_in_range|..]. }
  split; vm_compute; reflexivity.
Qed.

Lemma decStr2int64_toggling_sign_witness :
  parse decStr2int64 "---012" = ok (-12).
Proof.
  refine (proj1 (decStr2int64_toggling_sign 3 1 (C "12") _ _)).
  - split; [discriminate|]. split; [|left; discriminate].
    repeat constructor; vm_compute; discriminate.
  - vm_compute. reflexivity.
Defined.

(** *** Characters outside the digit set *)

Lemma first_illegal_some (legal : ascii -> bool) (good rest : cstr) (c : ascii)
    (l i : Z) :
  Forall (fun x => legal x = true) good -> legal c = false ->
  0 <= i -> i + len (good ++ c :: rest) = l -> l < two64 ->
  first_illegal legal (good ++ c :: rest) l i = Some c.
Proof.
  unfold len. revert i. induction good as [|x good IH]; intros i Hall Hc Hi Hl Hmax.
  - simpl in *. by rewrite (proj2 (Z.ltb_lt _ _)), Hc by lia.
  - apply Forall_cons in Hall as [Hx Hall]. simpl in *.
    rewrite (proj2 (Z.ltb_lt _ _)), Hx, as_uint64_small by lia.
    apply IH; [done|done|lia..].
Qed.

(** X6.  What the character check of [octStr2uint64] does reject: in a
    literal within the length limit, the first character that is not one of
    0 to 8 is reported as illegal, naming it, and 0 is returned. *)
Lemma octStr2uint64_illegal_character (x : ascii) (z : nat)
    (good rest : cstr) (c : ascii) :
  x = "o"%char \/ x = "O"%char ->
  NUL ∉ good ++ c :: rest -> head (good ++ c :: rest) <> Some "0"%char ->
  2 + Z.of_nat z + len (good ++ c :: rest) < two64 ->
  len (good ++ c :: rest) < 22
  \/ (len (good ++ c :: rest) = 22 /\ head (good ++ c :: rest) = Some "1"%char) ->
  Forall (fun d => is_oct_char d = true) good -> is_oct_char c = false ->
  octStr2uint64 (Some (literal x z (good ++ c :: rest)))
                (len (literal x z (good ++ c :: rest)))
  = failed (illegal_msg c "octal").
Proof.
  intros Hx Hnul Hhead Hmax Hshort Hgood Hc.
  set (body := good ++ c :: rest) in *.
  assert (Hlen : len (literal x z body) = 2 + Z.of_nat z + len body).
  { unfold len, literal. simpl. rewrite length_app, repeat_length. lia. }
  destruct (literal_facts x z body) as (Hz & Hskip & Hsize & Hat & Hfrom & H3);
    [by destruct Hx as [-> | ->]|done|by destruct good|done|lia|].
  unfold octStr2uint64.
  replace (has_prefix (literal x z body) "o" "O") with true
    by (by destruct Hx as [-> | ->]).
  rewrite Hz, Hskip, Hsize, Hat, Hfrom. cbn [negb orb].
  replace ((22 <? len body)
           || (len body =? 22) && negb (Ascii.eqb (default NUL (head body)) "1"))
    with false.
  - pose proof (first_illegal_some is_oct_char good rest c
                  (len (literal x z body)) (2 + Z.of_nat z) Hgood Hc) as Hfi.
    fold body in Hfi. by rewrite Hfi by lia.
  - symmetry. destruct Hshort as [Hlt | [-> ->]]; [|done].
    by rewrite (proj2 (Z.ltb_ge _ _)), (proj2 (Z.eqb_neq _ _)) by lia.
Qed.

(** * Further properties of the code *)

(** ** Characters and digits *)

Ltac char_codes :=
  change (code "0") with 48 in *; change (code "1") with 49 in *;
  change (code "7") with 55 in *; change (code "8") with 56 in *;
  change (code "9") with 57 in *; change (code "a") with 97 in *;
  change (code "f") with 102 in *; change (code "z") with 122 in *;
  change (code "A") with 65 in *; change (code "F") with 70 in *;
  change (code "Z") with 90 in *; change (code "x") with 120 in *;
  change (code "X") with 88 in *; change (code "-") with 45 in *;
  change (code "+") with 43 in *; change (code NUL) with 0 in *.

Ltac by_codes :=
  char_codes;
  repeat first
    [ match goal with |- context [?a <=? ?b] => destruct (Z.leb_spec a b) end
    | match goal with |- context [?a <? ?b] => destruct (Z.ltb_spec a b) end
    | match goal with |- context [?a =? ?b] => destruct (Z.eqb_spec a b) end
    | match goal with
      | H : context [?a <=? ?b] |- _ => destruct (Z.leb_spec a b)
      end
    | match goal with
      | H : context [?a <? ?b] |- _ => destruct (Z.ltb_spec a b)
      end
    | match goal with
      | H : context [?a =? ?b] |- _ => destruct (Z.eqb_spec a b)
      end ];
  simpl in *; try done; try lia.

Lemma eqb_code (c d : ascii) : Ascii.eqb c d = (code c =? code d).
Proof.
  destruct (Ascii.eqb_spec c d) as [->|Hne]; [by rewrite Z.eqb_refl|].
  symmetry. apply Z.eqb_neq. intros H. by apply code_inj in H.
Qed.

Lemma code_range (c : ascii) : 0 <= code c < 256.
Proof.
  unfold code. pose proof (N_ascii_bounded c) as H.
  split; [lia|]. apply N2Z.inj_lt in H. exact H.
Qed.

Lemma digit_in_digit_of (base : Z) (c : ascii) :
  2 <= base <= 16 -> digit_in base c ->
  digit_of base c = Some (digit_value c) /\ 0 <= digit_value c.
Proof.
  intros Hb [Hhex Hlt]. revert Hhex Hlt.
  unfold digit_of, digit_value, is_hex_char, between. by_codes;
    intros _ Hlt; rewrite (proj2 (Z.ltb_lt _ _)) by lia;
    (split; [f_equal|]; lia).
Qed.

Lemma digit_in_plain (base : Z) (c : ascii) :
  digit_in base c ->
  isspace c = false /\ Ascii.eqb c "-" = false /\ Ascii.eqb c "+" = false
  /\ Ascii.eqb c "x" = false /\ Ascii.eqb c "X" = false /\ c <> NUL.
Proof.
  intros [Hhex _]. revert Hhex. rewrite !eqb_code.
  unfold isspace, is_hex_char, between. intros H.
  assert (Hn : code c <> 0) by (revert H; by_codes).
  do 5 (split; [revert H; by_codes|]).
  intros ->. by apply Hn.
Qed.

Lemma bin_digit_in (c : ascii) : is_bin_digit c = true -> digit_in 2 c.
Proof. unfold digit_in, is_bin_digit, is_hex_char, digit_value, between. by_codes. Qed.

Lemma oct_digit_in (c : ascii) : is_oct_digit c = true -> digit_in 8 c.
Proof. unfold digit_in, is_oct_digit, is_hex_char, digit_value, between. by_codes. Qed.

Lemma hex_digit_in (c : ascii) : is_hex_char c = true -> digit_in 16 c.
Proof.
  intros H. split; [done|]. revert H.
  unfold is_hex_char, digit_value, between. by_codes.
Qed.

Lemma digits_in_no_NUL (base : Z) (ds : cstr) :
  Forall (digit_in base) ds -> NUL ∉ ds.
Proof.
  intros Hall Hin. rewrite Forall_forall in Hall. apply Hall in Hin.
  by apply digit_in_plain in Hin as (_ & _ & _ & _ & _ & Hn).
Qed.

Lemma scan_digits_radix (base : Z) (ds : cstr) (acc : Z) :
  2 <= base <= 16 -> Forall (digit_in base) ds ->
  scan_digits base ds acc = foldl (radix_step base) acc ds.
Proof.
  intros Hb. revert acc. induction ds as [|c ds IH]; intros acc Hall; [done|].
  apply Forall_cons in Hall as [Hc Hall]. simpl.
  destruct (digit_in_digit_of base c Hb Hc) as [-> _]. by apply IH.
Qed.

Lemma radix_bounds (base : Z) (ds : cstr) (acc : Z) :
  2 <= base <= 16 -> Forall (digit_in base) ds -> 0 <= acc ->
  acc * base ^ len ds <= foldl (radix_step base) acc ds
  < (acc + 1) * base ^ len ds.
Proof.
  intros Hb. unfold len. revert acc.
  induction ds as [|c ds IH]; intros acc Hall Hacc.
  - simpl. lia.
  - apply Forall_cons in Hall as [Hc Hall].
    destruct (digit_in_digit_of base c Hb Hc) as [_ Hd]. destruct Hc as [_ Hlt].
    cbn [foldl length]. rewrite Nat2Z.inj_succ, Z.pow_succ_r by lia.
    specialize (IH (radix_step base acc c) Hall).
    unfold radix_step in *.
    assert (0 < base ^ Z.of_nat (length ds)) by (apply Z.pow_pos_nonneg; lia).
    split; [|apply Z.lt_le_trans with (1 := proj2 (IH ltac:(nia)))]; nia.
Qed.

Lemma radix_value_zeros (base : Z) (z : nat) (ds : cstr) :
  radix_value base (repeat "0"%char z ++ ds) = radix_value base ds.
Proof.
  unfold radix_value. rewrite foldl_app. f_equal.
  induction z as [|z IH]; [done|]. cbn [repeat foldl].
  change (radix_step base 0 "0"%char) with 0. exact IH.
Qed.

Lemma scan_0x_digits (base : Z) (s : cstr) :
  Forall (digit_in 16) s -> scan_0x base s = s.
Proof.
  intros Hall. destruct s as [|a [|b [|d s]]]; try done.
  apply Forall_cons in Hall as [_ Hall]. apply Forall_cons in Hall as [Hb _].
  apply digit_in_plain in Hb as (_ & _ & _ & Hx & HX & _).
  unfold scan_0x. by rewrite Hx, HX, andb_false_r.
Qed.

Lemma digit_in_mono (base : Z) (c : ascii) :
  base <= 16 -> digit_in base c -> digit_in 16 c.
Proof. intros Hb [H1 H2]. split; [done|lia]. Qed.

(** [sscanf] on a non-empty string of digits of the radix: the value,
    saturated. *)
Lemma sscanf_u64_radix (base : Z) (s : cstr) :
  2 <= base <= 16 -> s <> [] -> Forall (digit_in base) s ->
  sscanf_u64 base s
  = Some (if UINT64_MAX <? radix_value base s then UINT64_MAX
          else radix_value base s).
Proof.
  intros Hb Hne Hall. unfold sscanf_u64.
  rewrite upto_nul_id by by eapply digits_in_no_NUL.
  destruct s as [|c s]; [done|]. pose proof Hall as Hall'.
  apply Forall_cons in Hall' as [Hc _].
  pose proof (digit_in_plain _ _ Hc) as (Hsp & Hm & Hp & _).
  cbn [skip_space]. rewrite Hsp. unfold scan_sign. rewrite Hm, Hp.
  rewrite scan_0x_digits
    by (eapply Forall_impl;
        [exact Hall|intros x Hx; exact (digit_in_mono base x (proj2 Hb) Hx)]).
  unfold has_digit. destruct (digit_in_digit_of base c Hb Hc) as [-> _].
  rewrite bool_decide_eq_true_2 by by eexists.
  by rewrite scan_digits_radix.
Qed.

(** ** Literals with a radix prefix, in general *)

Lemma literal_layout (x : ascii) (z : nat) (body : cstr) :
  x <> NUL -> NUL ∉ body -> stripped body ->
  len (literal x z body) < two64 ->
  stringContainsZeroBytes (literal x z body) (len (literal x z body)) = false
  /\ skip_leading "0" (from (literal x z body) 2) (len (literal x z body)) 2
     = 2 + Z.of_nat z
  /\ size_sub (len (literal x z body)) (2 + Z.of_nat z) = len body
  /\ at_ (literal x z body) (2 + Z.of_nat z) = default NUL (head body)
  /\ from (literal x z body) (2 + Z.of_nat z) = body
  /\ from (literal x z body) 2 = repeat "0"%char z ++ body
  /\ len (literal x z body) = 2 + Z.of_nat z + len body
  /\ 0 < len body.
Proof.
  intros Hx Hnul [Hne Hhead] Hmax.
  assert (Hlen : len (literal x z body) = 2 + Z.of_nat z + len body).
  { unfold len, literal. simpl. rewrite length_app, repeat_length. lia. }
  assert (0 < len body).
  { unfold len. destruct body; [done|simpl; lia]. }
  assert (Hsplit : literal x z body
                   = ("0"%char :: x :: repeat "0"%char z) ++ body) by done.
  assert (Hpre : len ("0"%char :: x :: repeat "0"%char z) = 2 + Z.of_nat z).
  { unfold len. simpl. rewrite repeat_length. lia. }
  repeat split; try done; try lia.
  - apply no_zero_bytes. unfold literal.
    rewrite !not_elem_of_cons, not_elem_of_app. repeat split; try done.
    by apply NUL_not_in_repeat.
  - change (from (literal x z body) 2) with (repeat "0"%char z ++ body).
    apply skip_leading_spec; auto; lia.
  - rewrite size_sub_small; lia.
  - rewrite Hsplit, <- Hpre. apply at_head.
  - rewrite Hsplit, <- Hpre. apply from_app.
Qed.

Lemma prefix_not_NUL (x a b : ascii) : x = a \/ x = b -> a <> NUL -> b <> NUL -> x <> NUL.
Proof. by intros [-> | ->]. Qed.

(** *** Binary *)

Lemma bin_digit_cases (c : ascii) :
  is_bin_digit c = true -> c = "0"%char \/ c = "1"%char.
Proof.
  unfold is_bin_digit, between. char_codes. intros H.
  apply andb_prop in H as [H1 H2]. apply Z.leb_le in H1, H2.
  destruct (Z.eq_dec (code c) 48) as [E|E];
    [left|right]; apply code_inj; char_codes; lia.
Qed.

Lemma bin_loop_value (body : cstr) (l i acc k : Z) :
  Forall (fun c => is_bin_digit c = true) body ->
  0 <= i -> i + len body = l -> l < two64 ->
  0 <= k -> 0 <= acc < 2 ^ k -> k + len body <= 64 ->
  bin_loop body l i acc = ok (foldl (radix_step 2) acc body).
Proof.
  unfold len. revert i acc k.
  induction body as [|c body IH]; intros i acc k Hall Hi Hl Hmax Hk Hacc Hfit.
  - simpl in *. by rewrite (proj2 (Z.ltb_ge _ _)) by lia.
  - apply Forall_cons in Hall as [Hc Hall]. cbn [bin_loop foldl length] in *.
    rewrite (proj2 (Z.ltb_lt _ _)) by lia.
    assert (Hpow : 2 ^ (k + 1) <= two64).
    { unfold two64. apply Z.pow_le_mono_r; lia. }
    assert (Hk1 : 2 ^ (k + 1) = 2 * 2 ^ k) by (rewrite Z.pow_add_r; lia).
    rewrite Z.shiftl_mul_pow2, Z.pow_1_r by lia.
    rewrite (as_uint64_small (acc * 2)), (as_uint64_small (i + 1)) by lia.
    destruct (bin_digit_cases c Hc) as [-> | ->]; cbn [Ascii.eqb Bool.eqb].
    + assert (E : radix_step 2 acc "0" = acc * 2)
        by (unfold radix_step; change (digit_value "0") with 0; lia).
      rewrite E. apply (IH _ _ (k + 1)); try done; lia.
    + rewrite as_uint64_small by lia.
      assert (E : radix_step 2 acc "1" = acc * 2 + 1)
        by (unfold radix_step; change (digit_value "1") with 1; lia).
      rewrite E. apply (IH _ _ (k + 1)); try done; lia.
Qed.

Lemma bin_loop_illegal (good rest : cstr) (c : ascii) (l i acc : Z) :
  Forall (fun d => is_bin_digit d = true) good -> is_bin_digit c = false ->
  0 <= i -> i + len (good ++ c :: rest) = l -> l < two64 ->
  bin_loop (good ++ c :: rest) l i acc = failed (illegal_msg c "binary").
Proof.
  unfold len. revert i acc.
  induction good as [|d good IH]; intros i acc Hall Hc Hi Hl Hmax.
  - cbn [app bin_loop length] in *. rewrite (proj2 (Z.ltb_lt _ _)) by lia.
    assert (H0 : Ascii.eqb c "0" = false).
    { destruct (Ascii.eqb_spec c "0") as [->|]; [done|done]. }
    assert (H1 : Ascii.eqb c "1" = false).
    { destruct (Ascii.eqb_spec c "1") as [->|]; [done|done]. }
    by rewrite H0, H1.
  - apply Forall_cons in Hall as [Hd Hall]. cbn [app bin_loop length] in *.
    rewrite (proj2 (Z.ltb_lt _ _)), (as_uint64_small (i + 1)) by lia.
    destruct (bin_digit_cases d Hd) as [-> | ->]; cbn [Ascii.eqb Bool.eqb];
      apply IH; try done; lia.
Qed.

(** X1.  [binStr2uint64] on a well-formed literal -- the prefix, any
    redundant zeros and at most 64 binary digits -- returns the value of the
    digits in base 2 and leaves [err] untouched, whatever the case of the
    prefix and the number of zeros. *)
Theorem binStr2uint64_value (x : ascii) (z : nat) (body : cstr) :
  x = "b"%char \/ x = "B"%char ->
  Forall (fun c => is_bin_digit c = true) body -> stripped body ->
  len body <= 64 -> len (literal x z body) < two64 ->
  binStr2uint64 (Some (literal x z body)) (len (literal x z body))
  = ok (radix_value 2 body).
Proof.
  intros Hx Hall Hs Hfit Hmax.
  assert (Hin : Forall (digit_in 2) body).
  { eapply Forall_impl; [exact Hall|]. intros c. apply bin_digit_in. }
  destruct (literal_layout x z body)
    as (Hz & Hskip & Hsize & _ & Hfrom & _ & Hlen & Hpos);
    [by apply (prefix_not_NUL x "b" "B")|by eapply digits_in_no_NUL|done..|].
  unfold binStr2uint64.
  replace (has_prefix (literal x z body) "b" "B") with true
    by (by destruct Hx as [-> | ->]).
  rewrite Hz, Hskip, Hsize, Hfrom. cbn [negb orb].
  unfold CHPL_ASSERT. rewrite (proj2 (Z.leb_le 3 _)) by lia.
  cbn [mbind outcome_bind]. rewrite (proj2 (Z.ltb_ge _ _)) by lia.
  apply (bin_loop_value body _ _ 0 0); try done; lia.
Qed.

Lemma binStr2uint64_value_witness :
  binStr2uint64 (Some (literal "B" 2 (C "1011"))) (len (literal "B" 2 (C "1011")))
  = ok 11.
Proof.
  apply (binStr2uint64_value "B" 2 (C "1011")).
  - by right.
  - repeat constructor.
  - split; [discriminate|left; discriminate].
  - vm_compute. discriminate.
  - vm_compute. reflexivity.
Defined.

(** X2.  [binStr2uint64] on a literal of at most 64 characters after the
    prefix and the zeros reports the first character that is neither 0 nor 1
    as illegal, naming it, and returns 0. *)
Theorem binStr2uint64_illegal_character (x : ascii) (z : nat)
    (good rest : cstr) (c : ascii) :
  x = "b"%char \/ x = "B"%char ->
  NUL ∉ good ++ c :: rest -> stripped (good ++ c :: rest) ->
  len (good ++ c :: rest) <= 64 ->
  len (literal x z (good ++ c :: rest)) < two64 ->
  Forall (fun d => is_bin_digit d = true) good -> is_bin_digit c = false ->
  binStr2uint64 (Some (literal x z (good ++ c :: rest)))
                (len (literal x z (good ++ c :: rest)))
  = failed (illegal_msg c "binary").
Proof.
  intros Hx Hnul Hs Hfit Hmax Hgood Hc.
  destruct (literal_layout x z (good ++ c :: rest))
    as (Hz & Hskip & Hsize & _ & Hfrom & _ & Hlen & Hpos);
    [by apply (prefix_not_NUL x "b" "B")|done..|].
  unfold binStr2uint64.
  replace (has_prefix (literal x z (good ++ c :: rest)) "b" "B") with true
    by (by destruct Hx as [-> | ->]).
  rewrite Hz, Hskip, Hsize, Hfrom. cbn [negb orb].
  unfold CHPL_ASSERT. rewrite (proj2 (Z.leb_le 3 _)) by lia.
  cbn [mbind outcome_bind]. rewrite (proj2 (Z.ltb_ge _ _)) by lia.
  apply bin_loop_illegal; try done; lia.
Qed.

Lemma binStr2uint64_illegal_character_witness :
  binStr2uint64 (Some (literal "b" 1 (C "102"))) (len (literal "b" 1 (C "102")))
  = failed (illegal_msg "2" "binary").
Proof.
  apply (binStr2uint64_illegal_character "b" 1 (C "10") [] "2").
  - by left.
  - vm_compute. intros H.
    repeat (apply elem_of_cons in H as [H|H]; [discriminate H|]).
    by apply elem_of_nil in H.
  - split; [discriminate|left; discriminate].
  - vm_compute. discriminate.
  - vm_compute. reflexivity.
  - repeat constructor.
  - reflexivity.
Defined.

(** *** Hexadecimal *)

(** X3.  [hexStr2uint64] on a well-formed literal -- the prefix, any
    redundant zeros and at most sixteen hexadecimal digits of either case --
    returns the value of the digits in base 16 and leaves [err] untouched. *)
Theorem hexStr2uint64_value (x : ascii) (z : nat) (body : cstr) :
  x = "x"%char \/ x = "X"%char ->
  Forall (fun c => is_hex_char c = true) body -> stripped body ->
  len body <= 16 -> len (literal x z body) < two64 ->
  hexStr2uint64 (Some (literal x z body)) (len (literal x z body))
  = ok (radix_value 16 body).
Proof.
  intros Hx Hall Hs Hfit Hmax.
  assert (Hin : Forall (digit_in 16) body).
  { eapply Forall_impl; [exact Hall|]. intros c. apply hex_digit_in. }
  destruct (literal_layout x z body)
    as (Hz & Hskip & Hsize & _ & Hfrom & Hfrom2 & Hlen & Hpos);
    [by apply (prefix_not_NUL x "x" "X")|by eapply digits_in_no_NUL|done..|].
  unfold hexStr2uint64.
  replace (has_prefix (literal x z body) "x" "X") with true
    by (by destruct Hx as [-> | ->]).
  rewrite Hz, Hskip, Hsize, Hfrom, Hfrom2. cbn [negb orb].
  unfold CHPL_ASSERT. rewrite (proj2 (Z.leb_le 3 _)) by lia.
  cbn [mbind outcome_bind]. rewrite (proj2 (Z.ltb_ge _ _)) by lia.
  rewrite first_illegal_none; [|done|lia|lia|done].
  assert (Hall16 : Forall (digit_in 16) (repeat "0"%char z ++ body)).
  { apply Forall_app. split; [|done]. apply Forall_forall. intros c Hc.
    apply list_elem_of_In, repeat_spec in Hc as ->. by apply hex_digit_in. }
  rewrite (sscanf_u64_radix 16); [|lia|by destruct z, body, Hs|done].
  rewrite radix_value_zeros.
  pose proof (radix_bounds 16 body 0 ltac:(lia) Hin ltac:(lia)) as [_ Hup].
  fold (radix_value 16 body) in Hup.
  assert (16 ^ len body <= 16 ^ 16) by (apply Z.pow_le_mono_r; lia).
  change (16 ^ 16) with two64 in *.
  by rewrite (proj2 (Z.ltb_ge _ _)) by (unfold UINT64_MAX; lia).
Qed.

Lemma hexStr2uint64_value_witness :
  hexStr2uint64 (Some (literal "X" 3 (C "fF"))) (len (literal "X" 3 (C "fF")))
  = ok 255.
Proof.
  apply (hexStr2uint64_value "X" 3 (C "fF")).
  - by right.
  - repeat constructor.
  - split; [discriminate|left; discriminate].
  - vm_compute. discriminate.
  - vm_compute. reflexivity.
Defined.

(** X4.  [hexStr2uint64] on a literal of at most sixteen characters after
    the prefix and the zeros reports the first character that is not a
    hexadecimal digit as illegal, naming it, and returns 0. *)
Theorem hexStr2uint64_illegal_character (x : ascii) (z : nat)
    (good rest : cstr) (c : ascii) :
  x = "x"%char \/ x = "X"%char ->
  NUL ∉ good ++ c :: rest -> stripped (good ++ c :: rest) ->
  len (good ++ c :: rest) <= 16 ->
  len (literal x z (good ++ c :: rest)) < two64 ->
  Forall (fun d => is_hex_char d = true) good -> is_hex_char c = false ->
  hexStr2uint64 (Some (literal x z (good ++ c :: rest)))
                (len (literal x z (good ++ c :: rest)))
  = failed (illegal_msg c "hexadecimal").
Proof.
  intros Hx Hnul Hs Hfit Hmax Hgood Hc.
  destruct (literal_layout x z (good ++ c :: rest))
    as (Hz & Hskip & Hsize & _ & Hfrom & _ & Hlen & Hpos);
    [by apply (prefix_not_NUL x "x" "X")|done..|].
  unfold hexStr2uint64.
  replace (has_prefix (literal x z (good ++ c :: rest)) "x" "X") with true
    by (by destruct Hx as [-> | ->]).
  rewrite Hz, Hskip, Hsize, Hfrom. cbn [negb orb].
  unfold CHPL_ASSERT. rewrite (proj2 (Z.leb_le 3 _)) by lia.
  cbn [mbind outcome_bind]. rewrite (proj2 (Z.ltb_ge _ _)) by lia.
  by rewrite (first_illegal_some is_hex_char good rest c); [|done|done|lia..].
Qed.

Lemma hexStr2uint64_illegal_character_witness :
  hexStr2uint64 (Some (literal "x" 0 (C "1g"))) (len (literal "x" 0 (C "1g")))
  = failed (illegal_msg "g" "hexadecimal").
Proof.
  apply (hexStr2uint64_illegal_character "x" 0 (C "1") [] "g").
  - by left.
  - vm_compute. intros H.
    repeat (apply elem_of_cons in H as [H|H]; [discriminate H|]).
    by apply elem_of_nil in H.
  - split; [discriminate|left; discriminate].
  - vm_compute. discriminate.
  - vm_compute. reflexivity.
  - repeat constructor.
  - reflexivity.
Defined.

(** *** Octal *)

Lemma oct_digit_oct_char (c : ascii) : is_oct_digit c = true -> is_oct_char c = true.
Proof. unfold is_oct_digit, is_oct_char, between. by_codes. Qed.

(** X5.  [octStr2uint64] on a well-formed literal -- the prefix, any
    redundant zeros and octal digits, at most 21 of them or 22 that start
    with 1 -- returns the value of the digits in base 8 and leaves [err]
    untouched. *)
Theorem octStr2uint64_value (x : ascii) (z : nat) (body : cstr) :
  x = "o"%char \/ x = "O"%char ->
  Forall (fun c => is_oct_digit c = true) body -> stripped body ->
  len body <= 21 \/ (len body = 22 /\ head body = Some "1"%char) ->
  len (literal x z body) < two64 ->
  octStr2uint64 (Some (literal x z body)) (len (literal x z body))
  = ok (radix_value 8 body).
Proof.
  intros Hx Hall Hs Hfit Hmax.
  assert (Hin : Forall (digit_in 8) body).
  { eapply Forall_impl; [exact Hall|]. intros c. apply oct_digit_in. }
  destruct (literal_layout x z body)
    as (Hz & Hskip & Hsize & Hat & Hfrom & _ & Hlen & Hpos);
    [by apply (prefix_not_NUL x "o" "O")|by eapply digits_in_no_NUL|done..|].
  unfold octStr2uint64.
  replace (has_prefix (literal x z body) "o" "O") with true
    by (by destruct Hx as [-> | ->]).
  rewrite Hz, Hskip, Hsize, Hat, Hfrom. cbn [negb orb].
  replace ((22 <? len body)
           || (len body =? 22) && negb (Ascii.eqb (default NUL (head body)) "1"))
    with false.
  2:{ symmetry. destruct Hfit as [Hlt | [-> ->]]; [|done].
      by rewrite (proj2 (Z.ltb_ge _ _)), (proj2 (Z.eqb_neq _ _)) by lia. }
  rewrite first_illegal_none;
    [|eapply Forall_impl; [exact Hall|apply oct_digit_oct_char]|lia|lia|done].
  rewrite (sscanf_u64_radix 8); [|lia|by destruct Hs|done].
  assert (Hlt : radix_value 8 body < two64).
  { destruct Hfit as [Hshort | [H22 Hone]].
    - pose proof (radix_bounds 8 body 0 ltac:(lia) Hin ltac:(lia)) as [_ Hup].
      fold (radix_value 8 body) in Hup.
      assert (8 ^ len body <= 8 ^ 21) by (apply Z.pow_le_mono_r; lia).
      assert (8 ^ 21 < two64) by (vm_compute; reflexivity). lia.
    - destruct body as [|c body]; [done|]. simpl in Hone.
      injection Hone as ->. apply Forall_cons in Hin as [_ Hin].
      pose proof (radix_bounds 8 body 1 ltac:(lia) Hin ltac:(lia)) as [_ Hup].
      assert (E : len body = 21) by (unfold len in *; simpl in H22; lia).
      rewrite E in Hup. change ((1 + 1) * 8 ^ 21) with two64 in Hup.
      exact Hup. }
  by rewrite (proj2 (Z.ltb_ge _ _)) by (unfold UINT64_MAX; lia).
Qed.

Lemma octStr2uint64_value_witness :
  octStr2uint64 (Some (literal "o" 1 (C "17"))) (len (literal "o" 1 (C "17")))
  = ok 15.
Proof.
  apply (octStr2uint64_value "o" 1 (C "17")).
  - by left.
  - repeat constructor.
  - split; [discriminate|left; discriminate].
  - left. vm_compute. discriminate.
  - vm_compute. reflexivity.
Defined.

Lemma octStr2uint64_illegal_character_witness :
  octStr2uint64 (Some (literal "O" 2 (C "19"))) (len (literal "O" 2 (C "19")))
  = failed (illegal_msg "9" "octal").
Proof.
  apply (octStr2uint64_illegal_character "O" 2 (C "1") [] "9").
  - by right.
  - vm_compute. intros H.
    repeat (apply elem_of_cons in H as [H|H]; [discriminate H|]).
    by apply elem_of_nil in H.
  - discriminate.
  - vm_compute. reflexivity.
  - left. vm_compute. reflexivity.
  - repeat constructor.
  - reflexivity.
Defined.

(** *** Decimal *)

Lemma skip_minus_general (n : nat) (rest : cstr) (l p : Z) (negate : bool) :
  rest <> [] -> (head rest <> Some "-"%char \/ length rest = 1%nat) ->
  0 <= p -> p + Z.of_nat n + len rest = l -> l < two64 ->
  skip_minus (repeat "-"%char n ++ rest) l p negate
  = (p + Z.of_nat n, if Nat.odd n then negb negate else negate).
Proof.
  intros Hne [Hhead|Hone]; [by apply skip_minus_spec|].
  unfold len. revert p negate.
  induction n as [|n IH]; intros p negate Hp Hl Hmax.
  - destruct rest as [|x [|y rest]]; [done| |done]. simpl in *.
    rewrite size_sub_small by lia.
    rewrite (proj2 (Z.ltb_ge _ _)), andb_false_r by lia. f_equal. lia.
  - cbn [repeat app skip_minus]. rewrite size_sub_small by lia.
    rewrite Ascii.eqb_refl, (proj2 (Z.ltb_lt _ _)) by lia. cbn [andb].
    rewrite as_uint64_small by lia. rewrite IH by lia.
    f_equal; [lia|]. rewrite Nat.odd_succ, <- Nat.negb_odd.
    by destruct (Nat.odd n), negate.
Qed.

Lemma not_dec_char_not_zero (c : ascii) : is_dec_char c = false -> c <> "0"%char.
Proof. by intros H ->. Qed.

(** X7.  [decStr2uint64] reports the first character after the redundant
    zeros that is not a decimal digit as illegal, naming it, and returns 0;
    no overflow check is made before. *)
Theorem decStr2uint64_illegal_character (z : nat) (good rest : cstr) (c : ascii) :
  NUL ∉ good ++ c :: rest -> stripped (good ++ c :: rest) ->
  len (repeat "0"%char z ++ good ++ c :: rest) < two64 ->
  Forall is_digit good -> is_dec_char c = false ->
  decStr2uint64 (Some (repeat "0"%char z ++ good ++ c :: rest))
                (len (repeat "0"%char z ++ good ++ c :: rest))
  = failed (illegal_msg c "decimal").
Proof.
  intros Hnul [Hne Hhead] Hmax Hgood Hc.
  set (body := good ++ c :: rest) in *.
  assert (Hlen : len (repeat "0"%char z ++ body) = Z.of_nat z + len body).
  { unfold len. rewrite !length_app, !repeat_length. lia. }
  assert (Hpos : 0 < len body) by (unfold len; destruct body; [done|simpl; lia]).
  assert (Hnul' : NUL ∉ repeat "0"%char z ++ body).
  { rewrite not_elem_of_app. split; [by apply NUL_not_in_repeat|done]. }
  set (l := len (repeat "0"%char z ++ body)) in *.
  unfold decStr2uint64.
  rewrite first_byte_not_NUL, no_zero_bytes by (done || by destruct z, body).
  unfold CHPL_ASSERT. rewrite (proj2 (Z.leb_le 1 l)) by lia.
  cbn [orb mbind outcome_bind]. rewrite from_0.
  rewrite (skip_leading_spec "0" z body l 0); [|done|done|lia|lia|exact Hmax].
  rewrite Z.add_0_l, from_repeat_app.
  pose proof (first_illegal_some is_dec_char good rest c l (Z.of_nat z)) as Hfi.
  fold body in Hfi. rewrite Hfi; [done| |done|lia|lia|done].
  eapply Forall_impl; [exact Hgood|apply is_digit_dec_char].
Qed.

Lemma decStr2uint64_illegal_character_witness :
  decStr2uint64 (Some (C "0012a4")) (len (C "0012a4"))
  = failed (illegal_msg "a" "decimal").
Proof.
  apply (decStr2uint64_illegal_character 2 (C "12") (C "4") "a").
  - vm_compute. intros H.
    repeat (apply elem_of_cons in H as [H|H]; [discriminate H|]).
    by apply elem_of_nil in H.
  - split; [discriminate|left; discriminate].
  - vm_compute. reflexivity.
  - repeat constructor; vm_compute; discriminate.
  - reflexivity.
Defined.

(** X8.  [decStr2int64] strips the minus signs and the redundant zeros and
    then reports the first character that is not a decimal digit as illegal,
    naming it, and returns 0.  A minus sign is stripped only while a
    character follows it: in a literal made of minus signs alone the last
    one is the illegal character. *)
Theorem decStr2int64_illegal_character (k z : nat) (good rest : cstr) (c : ascii) :
  NUL ∉ good ++ c :: rest -> stripped (good ++ c :: rest) ->
  (z <> 0%nat \/ good <> [] \/ c <> "-"%char \/ rest = []) ->
  len (repeat "-"%char k ++ repeat "0"%char z ++ good ++ c :: rest) < two64 ->
  Forall is_digit good -> is_dec_char c = false ->
  decStr2int64 (Some (repeat "-"%char k ++ repeat "0"%char z ++ good ++ c :: rest))
               (len (repeat "-"%char k ++ repeat "0"%char z ++ good ++ c :: rest))
  = failed (illegal_msg c "decimal")
  /\ (forall n : nat,
        len (repeat "-"%char (S n)) < two64 ->
        decStr2int64 (Some (repeat "-"%char (S n))) (len (repeat "-"%char (S n)))
        = failed (illegal_msg "-" "decimal")).
Proof.
  assert (Hgen : forall k z good rest c,
    NUL ∉ good ++ c :: rest -> stripped (good ++ c :: rest) ->
    (z <> 0%nat \/ good <> [] \/ c <> "-"%char \/ rest = []) ->
    len (repeat "-"%char k ++ repeat "0"%char z ++ good ++ c :: rest) < two64 ->
    Forall is_digit good -> is_dec_char c = false ->
    decStr2int64 (Some (repeat "-"%char k ++ repeat "0"%char z ++ good ++ c :: rest))
                 (len (repeat "-"%char k ++ repeat "0"%char z ++ good ++ c :: rest))
    = failed (illegal_msg c "decimal")).
  { clear. intros k z good rest c Hnul [Hne Hhead] Hminus Hmax Hgood Hc.
    set (body := good ++ c :: rest) in *.
    assert (Hlen' : len (repeat "0"%char z ++ body) = Z.of_nat z + len body).
    { unfold len. rewrite !length_app, !repeat_length. lia. }
    assert (Hlen : len (repeat "-"%char k ++ repeat "0"%char z ++ body)
                   = Z.of_nat k + Z.of_nat z + len body).
    { unfold len. rewrite !length_app, !repeat_length. lia. }
    assert (Hpos : 0 < len body) by (unfold len; destruct body; [done|simpl; lia]).
    assert (Hnul' : NUL ∉ repeat "-"%char k ++ repeat "0"%char z ++ body).
    { rewrite !not_elem_of_app. repeat split;
        [by apply NUL_not_in_repeat..|done]. }
    assert (Hrest : repeat "0"%char z ++ body <> []) by (by destruct z, body).
    assert (Hfirst : head (repeat "0"%char z ++ body) <> Some "-"%char
                     \/ length (repeat "0"%char z ++ body) = 1%nat).
    { destruct z; [|by left]. simpl. unfold body in *.
      destruct good as [|d good].
      - destruct Hminus as [?|[?|[Hm| ->]]]; try done; [left|by right].
        simpl. congruence.
      - left. apply Forall_cons in Hgood as [Hd _]. simpl. intros [= ->].
        unfold is_digit in Hd. change (code "-") with 45 in Hd. lia. }
    set (l := len (repeat "-"%char k ++ repeat "0"%char z ++ body)) in *.
    unfold decStr2int64.
    rewrite first_byte_not_NUL, no_zero_bytes by (done || by destruct k, z, body).
    unfold CHPL_ASSERT. rewrite (proj2 (Z.leb_le 1 l)) by lia.
    cbn [orb mbind outcome_bind]. rewrite from_0.
    rewrite (skip_minus_general k _ l 0 false); [|done|done|lia|lia|exact Hmax].
    rewrite Z.add_0_l, from_repeat_app.
    rewrite (skip_leading_spec "0" z body l (Z.of_nat k));
      [|done|done|lia|lia|exact Hmax].
    replace (Z.of_nat k + Z.of_nat z)
      with (len (repeat "-"%char k ++ repeat "0"%char z))
      by (unfold len; rewrite length_app, !repeat_length; lia).
    rewrite app_assoc, from_app.
    pose proof (first_illegal_some is_dec_char good rest c l
                  (len (repeat "-"%char k ++ repeat "0"%char z))) as Hfi.
    fold body in Hfi. rewrite Hfi; [done| |done| | |done].
    - eapply Forall_impl; [exact Hgood|apply is_digit_dec_char].
    - unfold len. lia.
    - unfold len in *. rewrite length_app, !repeat_length. lia. }
  intros Hnul Hs Hminus Hmax Hgood Hc. split; [by apply Hgen|].
  intros n Hn.
  assert (E : repeat "-"%char (S n) = repeat "-"%char n ++ repeat "0"%char 0 ++ [] ++ ["-"%char]).
  { simpl. by rewrite <- repeat_cons. }
  rewrite E in *. apply Hgen.
  - vm_compute. intros H. apply elem_of_cons in H as [H|H]; [discriminate H|].
    by apply elem_of_nil in H.
  - split; [discriminate|left; discriminate].
  - by right; right; right.
  - exact Hn.
  - constructor.
  - reflexivity.
Qed.

Lemma decStr2int64_illegal_character_witness :
  decStr2int64 (Some (C "--07x")) (len (C "--07x"))
  = failed (illegal_msg "x" "decimal")
  /\ (forall n : nat,
        len (repeat "-"%char (S n)) < two64 ->
        decStr2int64 (Some (repeat "-"%char (S n))) (len (repeat "-"%char (S n)))
        = failed (illegal_msg "-" "decimal")).
Proof.
  apply (decStr2int64_illegal_character 2 1 (C "7") [] "x").
  - vm_compute. intros H.
    repeat (apply elem_of_cons in H as [H|H]; [discriminate H|]).
    by apply elem_of_nil in H.
  - split; [discriminate|left; discriminate].
  - left. discriminate.
  - vm_compute. reflexivity.
  - repeat constructor; vm_compute; discriminate.
  - reflexivity.
Defined.

(** ** Immediates of Params and types *)

Ltac width_cases H :=
  first [apply int_width_cases in H as [-> | [-> | [-> | ->]]]
        |apply bool_decide_eq_true in H as [-> | ->]].

(** X10.  With no Param, [paramToImmediate] makes the zero of the type, and
    [immediateToParam] makes of it the zero or empty Param of that type,
    with the type itself -- for every concrete type with an Immediate.  The
    nothing type comes back as the boolean false of type [bool], and any
    other type fails the assertion of [guessParamTagFromType]. *)
Theorem default_immediate_round_trip (context : Context) (t : Type_) :
  (concrete_type t = true ->
   paramToImmediate None (Some t) ≫= immediateToParam context
   = Ret (Some (zero_param t), Some t))
  /\ paramToImmediate None (Some NothingType) ≫= immediateToParam context
     = Ret (Some (BoolParam false), Some BoolType)
  /\ (forall name, paramToImmediate None (Some (OtherType name))
                   = Abort "case not handled")
  /\ paramToImmediate None None = Abort "null pointer dereferenced".
Proof.
  split; [|by repeat split].
  intros H. destruct t as [|w|w|w|w|w| | | | |n]; try done; simpl in H;
    width_cases H; reflexivity.
Qed.

Lemma default_immediate_round_trip_witness :
  paramToImmediate None (Some (ComplexType 64)) ≫= immediateToParam Context_empty
  = Ret (Some (zero_param (ComplexType 64)), Some (ComplexType 64)).
Proof.
  apply (proj1 (default_immediate_round_trip Context_empty (ComplexType 64))).
  reflexivity.
Defined.

Lemma paramToImmediate_fits (p : Param) (t : Type_) :
  (exists imm, paramToImmediate (Some p) (Some t) = Ret imm) <-> fits p t = true.
Proof.
  split.
  - intros [imm H]. revert H. unfold paramToImmediate.
    destruct p as [v|v|v|v| |v|v|v], t as [|w|w|w|w|w| | | | |n];
      simpl; try done; unfold int_width;
      repeat match goal with
             | |- context [Z.eqb ?a ?b] => destruct (Z.eqb_spec a b) as [->|?]
             end;
      try done; intros _; apply bool_decide_eq_true_2; lia.
  - intros H.
    destruct p as [v|v|v|v| |v|v|v], t as [|w|w|w|w|w| | | | |n];
      try done; simpl in H; try width_cases H; by eexists.
Qed.

(** X11.  [paramToImmediate] returns an Immediate exactly when the class of
    the Param and the type fit -- the type is of the Param's class and of a
    width an Immediate has, a boolean or none Param going with any type --
    and fails an assertion otherwise: an enum Param always, an integer Param
    with a type that is not an integer type, a width such as 12. *)
Theorem paramToImmediate_returns_iff_fits (p : Param) (t : Type_) :
  (exists imm, paramToImmediate (Some p) (Some t) = Ret imm) <-> fits p t = true.
Proof. exact (paramToImmediate_fits p t). Qed.

(** X12.  [immediateToParam] fails on no Immediate that [paramToImmediate]
    made of a Param: it returns a Param and a type, for the classes shaped
    by the type a Param of the same class with the type given, and for a
    boolean or none Param a boolean Param with the type [bool]. *)
Theorem immediateToParam_after_paramToImmediate (context : Context)
    (p : Param) (t : Type_) (imm : Immediate) :
  paramToImmediate (Some p) (Some t) = Ret imm ->
  exists p' t',
    immediateToParam context imm = Ret (Some p', Some t')
    /\ (if typed_class p then t' = t /\ tag p' = tag p
        else t' = BoolType /\ tag p' = paramtags.BoolParam).
Proof.
  intros H.
  assert (Hfits : fits p t = true)
    by (apply paramToImmediate_fits; by exists imm).
  destruct p as [v|v|v|v| |v|v|v], t as [|w|w|w|w|w| | | | |n];
    try done; simpl in Hfits; try width_cases Hfits;
    simpl in H; injection H as <-; by eexists _, _.
Qed.

Lemma immediateToParam_after_paramToImmediate_witness :
  exists p' t',
    immediateToParam Context_empty
      {| const_kind := NUM_KIND_UINT; string_kind := STRING_KIND_STRING;
         num_index := INT_SIZE_16; u := U_uint16 4464 |}
    = Ret (Some p', Some t')
    /\ (if typed_class (UintParam 70000)
        then t' = UintType 16 /\ tag p' = tag (UintParam 70000)
        else t' = BoolType /\ tag p' = paramtags.BoolParam).
Proof.
  apply (immediateToParam_after_paramToImmediate Context_empty
           (UintParam 70000) (UintType 16)).
  reflexivity.
Defined.

(** X13.  Through an Immediate an integer Param is cut to the width of its
    type: a signed one comes back wrapped in two's complement, an unsigned
    one modulo [2^width], with the type unchanged; and what comes back goes
    through unchanged. *)
Theorem integer_round_trip_wraps (context : Context) (w v : Z) :
  int_width w = true ->
  round_trip context (IntParam v) (IntType w)
  = Ret (Some (IntParam (to_signed w v)), Some (IntType w))
  /\ round_trip context (UintParam v) (UintType w)
     = Ret (Some (UintParam (to_unsigned w v)), Some (UintType w))
  /\ round_trip context (IntParam (to_signed w v)) (IntType w)
     = Ret (Some (IntParam (to_signed w v)), Some (IntType w))
  /\ round_trip context (UintParam (to_unsigned w v)) (UintType w)
     = Ret (Some (UintParam (to_unsigned w v)), Some (UintType w)).
Proof.
  intros H.
  assert (Hs : forall x, round_trip context (IntParam x) (IntType w)
                         = Ret (Some (IntParam (to_signed w x)), Some (IntType w))).
  { intros x. by width_cases H. }
  assert (Hu : forall x, round_trip context (UintParam x) (UintType w)
                         = Ret (Some (UintParam (to_unsigned w x)), Some (UintType w))).
  { intros x. by width_cases H. }
  assert (Hw : 0 < w) by (apply int_width_cases in H; lia).
  assert (0 < 2 ^ w) by (apply Z.pow_pos_nonneg; lia).
  repeat split; [apply Hs|apply Hu| |].
  - rewrite Hs. unfold to_signed at 1. by rewrite to_signed_mod.
  - rewrite Hu. unfold to_unsigned. by rewrite Z.mod_mod by lia.
Qed.

Lemma integer_round_trip_wraps_witness :
  round_trip Context_empty (IntParam 300) (IntType 8)
  = Ret (Some (IntParam 44), Some (IntType 8)).
Proof.
  apply (proj1 (integer_round_trip_wraps Context_empty 8 300 eq_refl)).
Defined.

(** X14.  The shape of an Immediate -- its kind, its width selector and its
    string kind -- comes from the type alone: for a Param of a class shaped
    by the type, the Immediate has the shape of the one made of the type
    with no Param, the placeholder [handleParamCast] coerces into. *)
Theorem immediate_shape_from_type (p : Param) (t : Type_) (imm : Immediate) :
  typed_class p = true ->
  paramToImmediate (Some p) (Some t) = Ret imm ->
  exists placeholder,
    paramToImmediate None (Some t) = Ret placeholder
    /\ const_kind placeholder = const_kind imm
    /\ num_index placeholder = num_index imm
    /\ string_kind placeholder = string_kind imm.
Proof.
  intros Hc H.
  assert (Hfits : fits p t = true)
    by (apply paramToImmediate_fits; by exists imm).
  destruct p as [v|v|v|v| |v|v|v], t as [|w|w|w|w|w| | | | |n];
    try done; simpl in Hfits; try width_cases Hfits;
    simpl in H; injection H as <-; by eexists.
Qed.

Lemma immediate_shape_from_type_witness :
  exists placeholder,
    paramToImmediate None (Some (ImagType 32)) = Ret placeholder
    /\ const_kind placeholder = NUM_KIND_IMAG
    /\ num_index placeholder = FLOAT_SIZE_32
    /\ string_kind placeholder = STRING_KIND_STRING.
Proof.
  apply (immediate_shape_from_type (RealParam double_zero) (ImagType 32)
           {| const_kind := NUM_KIND_IMAG; string_kind := STRING_KIND_STRING;
              num_index := FLOAT_SIZE_32; u := U_float32 double_zero |});
    reflexivity.
Defined.

Lemma paramToImmediate_returns_iff_fits_witness :
  exists imm, paramToImmediate (Some (IntParam 5)) (Some (IntType 16)) = Ret imm.
Proof.
  apply (proj2 (paramToImmediate_returns_iff_fits (IntParam 5) (IntType 16))).
  reflexivity.
Defined.

(** ** What [Param::fold] asks of its operands *)

(** X15.  [Param::fold] returns only for operands in order: the first has a
    type and a Param that fit, and the operator is a cast or is foldable
    with a second operand that is unknown or has a type and a Param.  In
    every other case the fold ends in a failed assertion or in an error of
    the evaluator. *)
Theorem fold_returns_only_if fold_constant coerce_immediate isUnknown
    context op a b q :
  fold fold_constant coerce_immediate isUnknown context op a b = Ret q ->
  (exists p t, param a = Some p /\ type a = Some t /\ fits p t = true)
  /\ (op = PRIM_CAST
      \/ (isParamOpFoldable op = true
          /\ (isUnknown b = true
              \/ (hasTypePtr b = true /\ hasParamPtr b = true)))).
Proof.
  unfold fold. intros H.
  apply bind_Ret in H as ([] & Ha & H).
  apply bind_Ret in H as (aImm & Hi & H).
  split.
  - unfold CHPL_ASSERT in Ha.
    destruct (hasTypePtr a && hasParamPtr a) eqn:E; [|done].
    apply andb_prop in E as [Ht Hp].
    apply bool_decide_eq_true in Ht as [t Ht], Hp as [p Hp].
    exists p, t. repeat split; [done..|].
    apply paramToImmediate_fits. exists aImm. by rewrite <- Hp, <- Ht.
  - case_bool_decide as Hop; [by left|right].
    apply bind_Ret in H as ([] & Hf & H).
    destruct (isParamOpFoldable op); [|done]. split; [done|].
    destruct (isUnknown b); [by left|right].
    apply bind_Ret in H as (result & Hr & _).
    apply bind_Ret in Hr as ([] & Hb & _).
    unfold CHPL_ASSERT in Hb.
    destruct (hasTypePtr b && hasParamPtr b) eqn:E; [|done].
    by apply andb_prop in E.
Qed.

Lemma fold_returns_only_if_witness :
  (exists p t, param (operand (IntType 64) (IntParam 300)) = Some p
               /\ type (operand (IntType 64) (IntParam 300)) = Some t
               /\ fits p t = true)
  /\ (PRIM_CAST = PRIM_CAST
      \/ (isParamOpFoldable PRIM_CAST = true
          /\ (negb (hasTypePtr (operand (IntType 8) (IntParam 0))) = true
              \/ (hasTypePtr (operand (IntType 8) (IntParam 0)) = true
                  /\ hasParamPtr (operand (IntType 8) (IntParam 0)) = true)))).
Proof.
  apply (fold_returns_only_if
           (fold_constant (fun _ _ _ imm => Ret imm))
           (coerce_immediate (fun _ to => Ret to))
           (fun q => negb (hasTypePtr q))
           Context_empty PRIM_CAST
           (operand (IntType 64) (IntParam 300))
           (operand (IntType 8) (IntParam 0))
           (operand (IntType 8) (IntParam 44))).
  reflexivity.
Defined.

(** X16.  What [Param::fold] uses of its second operand: for a cast its
    type and nothing else, neither the Param nor the qualifier; for any
    other operator nothing at all once the operand is unknown. *)
Theorem fold_second_operand fold_constant coerce_immediate isUnknown
    context op a b b' :
  (type b = type b' ->
   fold fold_constant coerce_immediate isUnknown context PRIM_CAST a b
   = fold fold_constant coerce_immediate isUnknown context PRIM_CAST a b')
  /\ (op <> PRIM_CAST -> isUnknown b = true -> isUnknown b' = true ->
      fold fold_constant coerce_immediate isUnknown context op a b
      = fold fold_constant coerce_immediate isUnknown context op a b').
Proof.
  split.
  - intros Ht. unfold fold, handleParamCast. simpl. by rewrite Ht.
  - intros Hop Hb Hb'. unfold fold.
    rewrite bool_decide_eq_false_2 by done. by rewrite Hb, Hb'.
Qed.

Lemma fold_second_operand_witness :
  fold (fold_constant (fun _ _ _ imm => Ret imm))
       (coerce_immediate (fun _ to => Ret to))
       (fun q => negb (hasTypePtr q)) Context_empty PRIM_CAST
       (operand (IntType 64) (IntParam 300))
       {| kind := PARAM; type := Some (IntType 8); param := Some (IntParam 7) |}
  = fold (fold_constant (fun _ _ _ imm => Ret imm))
       (coerce_immediate (fun _ to => Ret to))
       (fun q => negb (hasTypePtr q)) Context_empty PRIM_CAST
       (operand (IntType 64) (IntParam 300))
       {| kind := QUALIFIER_OTHER 0; type := Some (IntType 8); param := None |}.
Proof.
  apply (proj1 (fold_second_operand _ _ _ Context_empty P_prim_add
                  (operand (IntType 64) (IntParam 300))
                  {| kind := PARAM; type := Some (IntType 8);
                     param := Some (IntParam 7) |}
                  {| kind := QUALIFIER_OTHER 0; type := Some (IntType 8);
                     param := None |})).
  reflexivity.
Defined.

(** X17.  [Param::fold] sees its first operand through its Immediate only:
    two operands with a type and a Param each and with the same Immediate --
    such as the integers 300 and 44 at 8 bits -- fold alike, for every
    operator, second operand and evaluator. *)
Theorem fold_first_operand fold_constant coerce_immediate isUnknown
    context op a a' b :
  hasTypePtr a && hasParamPtr a = true ->
  hasTypePtr a' && hasParamPtr a' = true ->
  paramToImmediate (param a) (type a) = paramToImmediate (param a') (type a') ->
  fold fold_constant coerce_immediate isUnknown context op a b
  = fold fold_constant coerce_immediate isUnknown context op a' b.
Proof.
  intros Ha Ha' Heq. unfold fold, handleParamCast. by rewrite Ha, Ha', Heq.
Qed.

Lemma fold_first_operand_witness :
  fold (fold_constant (fun _ _ _ imm => Ret imm))
       (coerce_immediate (fun _ to => Ret to))
       (fun q => negb (hasTypePtr q)) Context_empty P_prim_mult
       (operand (IntType 8) (IntParam 300)) (operand (IntType 8) (IntParam 2))
  = fold (fold_constant (fun _ _ _ imm => Ret imm))
       (coerce_immediate (fun _ to => Ret to))
       (fun q => negb (hasTypePtr q)) Context_empty P_prim_mult
       (operand (IntType 8) (IntParam 44)) (operand (IntType 8) (IntParam 2)).
Proof.
  apply (fold_first_operand _ _ _ Context_empty P_prim_mult
           (operand (IntType 8) (IntParam 300))
           (operand (IntType 8) (IntParam 44))); reflexivity.
Defined.

(** ** Subclasses *)

Import ClassTypes.

Lemma isSubtypeOf_loop_spec (this : positive) (walk : list BasicClassType)
    (P : positive) (c i : bool) :
  let r := isSubtypeOf_loop this walk P c i in
  (is_subtype r = true <-> Exists (matches P) walk)
  /\ (is_subtype r = false -> converts r = c /\ instantiates r = i)
  /\ (c = true -> converts r = true)
  /\ (i = true -> instantiates r = true).
Proof.
  induction walk as [|t walk IH]; simpl.
  - split; [|done]. split; [done|]. intros H. by apply Exists_nil in H.
  - destruct IH as (IH1 & IH2 & IH3 & IH4).
    assert (Hhere : matches P t -> Exists (matches P) (t :: walk))
      by (intros; apply Exists_cons; by left).
    repeat case_bool_decide; simpl;
      (split; [split|split; [|split]]); try done;
      try (intros _; apply Hhere; unfold matches; tauto).
    + intros H'. apply Exists_cons. right. by apply IH1.
    + intros H'. apply Exists_cons in H' as [[?|?]|H']; [done..|]. by apply IH1.
Qed.

(** X18.  With a parent type given, [isSubtypeOf] answers true exactly when
    a class on the way from [this] to the top is the parent type or is
    instantiated from it.  When it answers false it has changed neither
    flag, and it never lowers a flag that was set.  With the null pointer
    for the parent type it fails its assertion. *)
Theorem isSubtypeOf_answer (this : BasicClassType)
    (ancestors : list BasicClassType) (P : positive) (c i : bool) :
  (exists r, isSubtypeOf this ancestors (Some P) c i = Ret r
     /\ (is_subtype r = true <-> Exists (matches P) (this :: ancestors))
     /\ (is_subtype r = false -> converts r = c /\ instantiates r = i)
     /\ (c = true -> converts r = true)
     /\ (i = true -> instantiates r = true))
  /\ isSubtypeOf this ancestors None c i = Abort "parentType != nullptr".
Proof.
  split; [|done]. eexists. split; [reflexivity|].
  apply isSubtypeOf_loop_spec.
Qed.

(** X19.  A class is a subtype of itself and of the class it is
    instantiated from, without conversion: the first leaves both flags as
    they were, the second sets [instantiates] only. *)
Theorem isSubtypeOf_self (this : BasicClassType)
    (ancestors : list BasicClassType) (c i : bool) :
  isSubtypeOf this ancestors (Some (address this)) c i
  = Ret {| is_subtype := true; converts := c; instantiates := i |}
  /\ (forall P, instantiatedFrom this = Some P -> P <> address this ->
        isSubtypeOf this ancestors (Some P) c i
        = Ret {| is_subtype := true; converts := c; instantiates := true |}).
Proof.
  split.
  - unfold isSubtypeOf. simpl. by rewrite !bool_decide_eq_true_2.
  - intros P HP Hne. unfold isSubtypeOf. simpl.
    rewrite bool_decide_eq_false_2 by done.
    by rewrite !bool_decide_eq_true_2.
Qed.

Lemma isSubtypeOf_self_witness :
  isSubtypeOf {| address := 2; instantiatedFrom := Some 5%positive |} []
              (Some 5%positive) false false
  = Ret {| is_subtype := true; converts := false; instantiates := true |}.
Proof.
  apply (proj2 (isSubtypeOf_self
                  {| address := 2; instantiatedFrom := Some 5%positive |}
                  [] false false) 5%positive); [reflexivity|discriminate].
Defined.

(** X20.  The answer passes down to subclasses: when a class on the way up
    from [this] is a subtype of the parent type, so is [this]. *)
Theorem isSubtypeOf_inherited (this p : BasicClassType)
    (between rest : list BasicClassType) (P : positive) (c i c' i' : bool)
    (r : answer) :
  isSubtypeOf p rest (Some P) c i = Ret r -> is_subtype r = true ->
  exists r', isSubtypeOf this (between ++ p :: rest) (Some P) c' i' = Ret r'
             /\ is_subtype r' = true.
Proof.
  intros H Hr. eexists. split; [reflexivity|].
  assert (E : Exists (matches P) (p :: rest)).
  { apply (proj1 (isSubtypeOf_loop_spec (address p) (p :: rest) P c i)).
    by injection H as <-. }
  apply isSubtypeOf_loop_spec. apply Exists_cons. right.
  apply Exists_app. by right.
Qed.

Lemma isSubtypeOf_inherited_witness :
  exists r',
    isSubtypeOf {| address := 1; instantiatedFrom := None |}
      ([{| address := 2; instantiatedFrom := None |}]
       ++ {| address := 3; instantiatedFrom := None |}
       :: [{| address := 4; instantiatedFrom := None |}])
      (Some 4%positive) false false = Ret r'
    /\ is_subtype r' = true.
Proof.
  apply (isSubtypeOf_inherited _ {| address := 3; instantiatedFrom := None |}
           _ [{| address := 4; instantiatedFrom := None |}] 4%positive
           false false false false
           {| is_subtype := true; converts := true; instantiates := false |});
    reflexivity.
Defined.

(** X21.  When [this] is neither the parent type nor instantiated from it
    and a class above it is, [isSubtypeOf] sets [converts] -- no class above
    [this] having the address of [this] -- and it sets [instantiates] only
    when a class on the way is instantiated from the parent type. *)
Theorem isSubtypeOf_converts (this : BasicClassType)
    (ancestors : list BasicClassType) (P : positive) (c i : bool) (r : answer) :
  isSubtypeOf this ancestors (Some P) c i = Ret r ->
  ~ matches P this -> Exists (matches P) ancestors ->
  Forall (fun t => address t <> address this) ancestors ->
  is_subtype r = true /\ converts r = true
  /\ (instantiates r = true ->
      i = true \/ Exists (fun t => instantiatedFrom t = Some P) ancestors).
Proof.
  unfold isSubtypeOf. simpl. intros [= <-] Hthis Hex Hdistinct.
  unfold matches in Hthis.
  rewrite !bool_decide_eq_false_2 by tauto.
  induction ancestors as [|t ancestors IH]; [by apply Exists_nil in Hex|].
  apply Forall_cons in Hdistinct as [Ht Hdistinct]. simpl.
  destruct (decide (address t = P)) as [E1|E1].
  { rewrite (bool_decide_eq_true_2 (address t = P)) by done.
    rewrite (bool_decide_eq_false_2 (address t = address this)) by done.
    simpl. split; [done|]. split; [done|]. by left. }
  rewrite (bool_decide_eq_false_2 (address t = P)) by done.
  destruct (decide (instantiatedFrom t = Some P)) as [E2|E2].
  { rewrite (bool_decide_eq_true_2 (instantiatedFrom t = Some P)) by done.
    rewrite (bool_decide_eq_false_2 (address t = address this)) by done.
    simpl. split; [done|]. split; [done|]. intros _. right.
    apply Exists_cons. by left. }
  rewrite (bool_decide_eq_false_2 (instantiatedFrom t = Some P)) by done.
  apply Exists_cons in Hex as [[?|?]|Hex]; [done..|].
  destruct (IH Hex Hdistinct) as (H1 & H2 & H3).
  split; [done|]. split; [done|].
  intros Hi. destruct (H3 Hi) as [?|?]; [by left|right].
  apply Exists_cons. by right.
Qed.

Lemma isSubtypeOf_converts_witness :
  is_subtype {| is_subtype := true; converts := true; instantiates := true |} = true
  /\ converts {| is_subtype := true; converts := true; instantiates := true |} = true
  /\ (instantiates {| is_subtype := true; converts := true; instantiates := true |}
      = true ->
      false = true
      \/ Exists (fun t => instantiatedFrom t = Some 9%positive)
           [{| address := 2; instantiatedFrom := Some 9%positive |}]).
Proof.
  apply (isSubtypeOf_converts {| address := 1; instantiatedFrom := None |}
           [{| address := 2; instantiatedFrom := Some 9%positive |}]
           9%positive false false).
  - reflexivity.
  - intros [H|H]; discriminate H.
  - apply Exists_cons. left. by right.
  - repeat constructor. discriminate.
Defined.

Lemma isSubtypeOf_answer_witness :
  exists r,
    isSubtypeOf {| address := 1; instantiatedFrom := None |}
      [{| address := 2; instantiatedFrom := None |}] (Some 7%positive) true false
    = Ret r
    /\ (is_subtype r = true
        <-> Exists (matches 7%positive)
              [{| address := 1; instantiatedFrom := None |};
               {| address := 2; instantiatedFrom := None |}])
    /\ (is_subtype r = false -> converts r = true /\ instantiates r = false)
    /\ (true = true -> converts r = true)
    /\ (false = true -> instantiates r = true).
Proof.
  exact (proj1 (isSubtypeOf_answer {| address := 1; instantiatedFrom := None |}
                  [{| address := 2; instantiatedFrom := None |}]
                  7%positive true false)).
Defined.

(** ** The type of a cast *)

Lemma immediateToParam_type_of_shape (context : Context) (t : Type_)
    (placeholder imm : Immediate) :
  concrete_type t = true ->
  paramToImmediate None (Some t) = Ret placeholder ->
  const_kind imm = const_kind placeholder ->
  num_index imm = num_index placeholder ->
  string_kind imm = string_kind placeholder ->
  exists p, immediateToParam context imm = Ret (Some p, Some t).
Proof.
  intros Ht Hp Hk Hn Hs. destruct imm as [k s n v]. simpl in *.
  destruct t as [|w|w|w|w|w| | | | |name]; try done; simpl in Ht;
    try width_cases Ht; simpl in Hp; injection Hp as <-; simpl in *; subst;
    by eexists.
Qed.

(** X22.  A cast returns the destination type: when the coercion fills the
    destination Immediate in without changing its kind, width selector and
    string kind, the [QualifiedType] that [Param::fold] returns for
    [PRIM_CAST] has the type of the second operand, for every concrete type
    with an Immediate. *)
Theorem cast_result_type fold_constant coerce_immediate isUnknown
    context a b t q :
  (forall from to filled,
     coerce_immediate context from to = Ret filled ->
     const_kind filled = const_kind to
     /\ num_index filled = num_index to
     /\ string_kind filled = string_kind to) ->
  type b = Some t -> concrete_type t = true ->
  fold fold_constant coerce_immediate isUnknown context PRIM_CAST a b = Ret q ->
  kind q = PARAM /\ type q = Some t /\ is_Some (param q).
Proof.
  intros Hkeep Hb Ht H. unfold fold in H.
  apply bind_Ret in H as ([] & _ & H).
  apply bind_Ret in H as (aImm0 & _ & H).
  rewrite bool_decide_eq_true_2 in H by done. unfold handleParamCast in H.
  apply bind_Ret in H as (aImm & _ & H).
  apply bind_Ret in H as (bImm & HbImm & H).
  apply bind_Ret in H as (filled & Hfill & H).
  apply bind_Ret in H as (pair & Hpair & H).
  apply Hkeep in Hfill as (Hk & Hn & Hs). rewrite Hb in HbImm.
  destruct (immediateToParam_type_of_shape context t bImm filled)
    as [p Hp]; try done.
  rewrite Hp in Hpair. injection Hpair as <-. injection H as <-. simpl.
  by repeat split.
Qed.

Lemma cast_result_type_witness :
  kind (operand (UintType 16) (UintParam 0)) = PARAM
  /\ type (operand (UintType 16) (UintParam 0)) = Some (UintType 16)
  /\ is_Some (param (operand (UintType 16) (UintParam 0))).
Proof.
  apply (cast_result_type
           (fold_constant (fun _ _ _ imm => Ret imm))
           (fun _ _ to => Ret to)
           (fun q => negb (hasTypePtr q))
           Context_empty
           (operand (IntType 64) (IntParam 300))
           (operand (UintType 16) (UintParam 9))
           (UintType 16)).
  - intros from to filled H. injection H as <-. by repeat split.
  - reflexivity.
  - reflexivity.
  - reflexivity.
Defined.
